(** * adif_map: ADIF parsing, Maidenhead conversion and coordinate resolution

    Shallow embedding of [src/adimap/adif.py], [src/adimap/maidenhead.py]
    and the coordinate part of [src/adimap/map_builder.py].

    Modelling choices:
    - Python [str] values are modelled as [list ascii] (the ASCII subset of
      Unicode); [str.strip], [str.upper], [isalpha], [isdigit] are their
      ASCII behaviour.
    - Python floats are modelled as exact rationals [Q]; rounding to binary64
      is not modelled.  Python [float()] is modelled on the decimal literal
      grammar it accepts (sign, digit groups with single underscores, point,
      exponent); the spellings [inf]/[nan] are mapped to [None], which does
      not change [_parse_coord]: an infinite or NaN value always fails its
      range check there.
    - A Python [dict[str, str]] record is an stdpp [gmap]. *)

From Stdlib Require Import ZArith QArith Qabs Ascii String Lqa.
From stdpp Require Import base list gmap strings sorting.

Local Open Scope Z_scope.

Abbreviation str := (list ascii).

(** String literals as character lists. *)
Definition s_ (x : string) : str := list_ascii_of_string x.

(** ** Characters (ASCII behaviour of Python's [str] predicates) *)
Module Chars.

Definition code (c : ascii) : nat := nat_of_ascii c.

(** [str.isspace] on ASCII: \t \n \v \f \r, \x1c-\x1f and space. *)
Definition is_space (c : ascii) : bool :=
  ((9 <=? code c) && (code c <=? 13))%nat || ((28 <=? code c) && (code c <=? 32))%nat.

Definition is_upper (c : ascii) : bool := ((65 <=? code c) && (code c <=? 90))%nat.
Definition is_lower (c : ascii) : bool := ((97 <=? code c) && (code c <=? 122))%nat.
Definition is_alpha (c : ascii) : bool := is_upper c || is_lower c.
Definition is_digit (c : ascii) : bool := ((48 <=? code c) && (code c <=? 57))%nat.

Definition to_upper (c : ascii) : ascii :=
  if is_lower c then ascii_of_nat (code c - 32) else c.
Definition to_lower (c : ascii) : ascii :=
  if is_upper c then ascii_of_nat (code c + 32) else c.

(** [ord(c)] and [int(c)] for a decimal digit [c]. *)
Definition ord (c : ascii) : Z := Z.of_nat (code c).
Definition digit_val (c : ascii) : Z := ord c - 48.

End Chars.
Import Chars.

(** [str.strip], [str.upper], [str.isdigit] *)
Fixpoint lstrip (s : str) : str :=
  match s with
  | c :: r => if is_space c then lstrip r else s
  | [] => []
  end.
Definition rstrip (s : str) : str := rev (lstrip (rev s)).
Definition strip (s : str) : str := rstrip (lstrip s).
Definition upper (s : str) : str := map to_upper s.
Definition isdigit (s : str) : bool :=
  match s with [] => false | _ => forallb is_digit s end.

(** ** Python [float()] on decimal literals *)
Module PyFloat.

(** [digitpart ::= digit (["_"] digit)*] *)
Fixpoint digitpart_ok (w : str) : bool :=
  match w with
  | [] => false
  | c :: r =>
      is_digit c &&
      match r with
      | [] => true
      | u :: r' => if Ascii.eqb u "_"%char then digitpart_ok r' else digitpart_ok r
      end
  end.

Definition digits_value (w : str) : Z :=
  fold_left (fun acc c => if is_digit c then acc * 10 + digit_val c else acc) w 0.

Definition ndigits (w : str) : Z := Z.of_nat (length (filter is_digit w)).

(** Split at the first character satisfying [p]. *)
Fixpoint split_first (p : ascii -> bool) (w : str) : str * option str :=
  match w with
  | [] => ([], None)
  | c :: r =>
      if p c then ([], Some r)
      else let '(a, b) := split_first p r in (c :: a, b)
  end.

Definition is_e (c : ascii) : bool := Ascii.eqb c "e"%char || Ascii.eqb c "E"%char.
Definition is_point (c : ascii) : bool := Ascii.eqb c "."%char.

(** Optional sign. *)
Definition sign_split (w : str) : bool * str :=
  match w with
  | c :: r => if Ascii.eqb c "-"%char then (true, r)
              else if Ascii.eqb c "+"%char then (false, r) else (false, w)
  | [] => (false, w)
  end.

Definition exponent_value (w : option str) : option Z :=
  match w with
  | None => Some 0
  | Some e =>
      let '(neg, d) := sign_split e in
      if digitpart_ok d then Some (if neg then - digits_value d else digits_value d)
      else None
  end.

(** [10^k * n] as a rational, for any integer [k]. *)
Definition scale (n k : Z) : Q :=
  if 0 <=? k then inject_Z (n * 10 ^ k) else Qmake n (Z.to_pos (10 ^ (- k))).

Definition py_float (s : str) : option Q :=
  let '(neg, body) := sign_split (strip s) in
  let '(mant, ex) := split_first is_e body in
  let '(ip, fp) := split_first is_point mant in
  let ok :=
    match fp with
    | None => digitpart_ok ip
    | Some f =>
        (match ip with [] => true | _ => digitpart_ok ip end) &&
        (match f with [] => true | _ => digitpart_ok f end) &&
        negb (match ip, f with [], [] => true | _, _ => false end)
    end in
  let frac := match fp with None => [] | Some f => f end in
  if ok then
    match exponent_value ex with
    | None => None
    | Some e =>
        let v := scale (digits_value (ip ++ frac)) (e - ndigits frac) in
        Some (if neg then Qopp v else v)
    end
  else None.

End PyFloat.
Import PyFloat.

(** ** [maidenhead.py] *)
Module Maidenhead.

Definition nthc (g : str) (i : nat) : ascii := nth i g "000"%char.

(** Half-open slice [g[i:j]]. *)
Definition slice (g : str) (i j : nat) : str := take (j - i) (drop i g).

(** [maidenhead_to_latlon(grid)]: [(lat, lon)] of the cell centre, or [None]. *)
Definition maidenhead_to_latlon (grid : str) : option (Q * Q) :=
  match grid with
  | [] => None
  | _ =>
    let g := upper (strip grid) in
    let n := length g in
    if (n <? 2)%nat then None else
    let lon0 := inject_Z ((ord (nthc g 0) - ord "A"%char) * 20 - 180) in
    let lat0 := inject_Z ((ord (nthc g 1) - ord "A"%char) * 10 - 90) in
    let step2 :=
      if (4 <=? n)%nat && isdigit (slice g 2 4) then
        Some (lon0 + inject_Z (digit_val (nthc g 2) * 2),
              lat0 + inject_Z (digit_val (nthc g 3) * 1))%Q
      else if (3 <=? n)%nat then None
      else Some (lon0, lat0) in
    match step2 with
    | None => None
    | Some (lon1, lat1) =>
    let step3 :=
      if (6 <=? n)%nat && is_alpha (nthc g 4) && is_alpha (nthc g 5) then
        Some (lon1 + inject_Z (ord (nthc g 4) - ord "A"%char) * (2 # 24),
              lat1 + inject_Z (ord (nthc g 5) - ord "A"%char) * (1 # 24))%Q
      else if (n =? 5)%nat then None
      else Some (lon1, lat1) in
    match step3 with
    | None => None
    | Some (lon2, lat2) =>
    let step4 :=
      if (8 <=? n)%nat && isdigit (slice g 6 8) then
        Some (lon2 + inject_Z (digit_val (nthc g 6)) * (2 # 240),
              lat2 + inject_Z (digit_val (nthc g 7)) * (1 # 240))%Q
      else if (n =? 7)%nat then None
      else Some (lon2, lat2) in
    match step4 with
    | None => None
    | Some (lon, lat) =>
    let '(cell_lon, cell_lat) :=
      if (8 <=? n)%nat then ((2 # 240), (1 # 240))%Q
      else if (6 <=? n)%nat then ((2 # 24), (1 # 24))%Q
      else if (4 <=? n)%nat then (2%Q, 1%Q)
      else (20%Q, 10%Q) in
    Some (lat + cell_lat / 2, lon + cell_lon / 2)%Q
    end end end
  end.

End Maidenhead.
Import Maidenhead.

(** ** Coordinate resolution, [map_builder.py] *)
Module Resolver.

Definition lastc (s : str) : ascii := List.last s "000"%char.

(** [suffix = s[-1].upper() if s[-1].isalpha() else ""] ([None] for [""]). *)
Definition coord_suffix (s : str) : option ascii :=
  if is_alpha (lastc s) then Some (to_upper (lastc s)) else None.

(** [val_str = s[:-1] if suffix else s] *)
Definition coord_val_str (s : str) : str :=
  match coord_suffix s with Some _ => removelast s | None => s end.

(** The [if suffix:] block. *)
Definition apply_suffix (suffix : option ascii) (val : Q) : option Q :=
  match suffix with
  | None => Some val
  | Some c =>
      if Ascii.eqb c "N"%char || Ascii.eqb c "E"%char then Some val
      else if Ascii.eqb c "S"%char || Ascii.eqb c "W"%char then Some (- val)%Q
      else None
  end.

Definition in_range (is_lat : bool) (v : Q) : bool :=
  if is_lat then Qle_bool (-90) v && Qle_bool v 90
  else Qle_bool (-180) v && Qle_bool v 180.

(** [_parse_coord(text, is_lat)]; [text] is never [None] at its call sites. *)
Definition parse_coord (text : str) (is_lat : bool) : option Q :=
  let s := strip text in
  match s with
  | [] => None
  | _ =>
    match py_float (coord_val_str s) with
    | None => None
    | Some val =>
        match apply_suffix (coord_suffix s) val with
        | None => None
        | Some v => if in_range is_lat v then Some v else None
        end
    end
  end.

Definition parse_latlon (lat_str lon_str : str) : option (Q * Q) :=
  match parse_coord lat_str true, parse_coord lon_str false with
  | Some lat, Some lon => Some (lat, lon)
  | _, _ => None
  end.

Inductive source := LATLON | GRID.

(** Python truthiness of an optional string, and [a or b]. *)
Definition truthy (o : option str) : bool :=
  match o with Some (_ :: _) => true | _ => false end.
Definition py_or (a b : option str) : option str := if truthy a then a else b.

Definition best_latlon (entry : gmap str str) : option (Q * Q * source) :=
  let lat := entry !! s_ "LAT" in
  let lon := entry !! s_ "LON" in
  let direct :=
    match lat, lon with
    | Some la, Some lo =>
        if truthy lat && truthy lon then parse_latlon la lo else None
    | _, _ => None
    end in
  match direct with
  | Some (a, b) => Some (a, b, LATLON)
  | None =>
    let grid := py_or (entry !! s_ "GRIDSQUARE") (entry !! s_ "MY_GRIDSQUARE") in
    match grid with
    | Some g =>
        if truthy grid then
          match maidenhead_to_latlon g with
          | Some (a, b) => Some (a, b, GRID)
          | None => None
          end
        else None
    | None => None
    end
  end.

(** The reduction loop at the head of [build_map]. *)
Definition reduce_step (acc : list (Q * Q * gmap str str) * nat) (rec : gmap str str)
  : list (Q * Q * gmap str str) * nat :=
  let '(points, skipped) := acc in
  match best_latlon rec with
  | None => (points, S skipped)
  | Some (lat, lon, _src) => (points ++ [(lat, lon, rec)], skipped)
  end.

Definition reduce_records (records : list (gmap str str)) : list (Q * Q * gmap str str) * nat :=
  fold_left reduce_step records ([], 0%nat).

End Resolver.
Import Resolver.

(** ** [adif.py] *)
Module Adif.

(** Case-insensitive literal matching, as [re.IGNORECASE] does for the
    lower-case ASCII patterns [<eoh>] and [<eor>]. *)
Fixpoint ci_prefix (pat s : str) : bool :=
  match pat, s with
  | [], _ => true
  | p :: ps, c :: cs => Ascii.eqb (to_lower c) p && ci_prefix ps cs
  | _ :: _, [] => false
  end.

(** [re.search(pat, s, re.IGNORECASE)]: text before and after the first match. *)
Fixpoint search_ci (pat s : str) : option (str * str) :=
  if ci_prefix pat s then Some ([], drop (length pat) s)
  else match s with
       | [] => None
       | c :: r => match search_ci pat r with
                   | Some (a, b) => Some (c :: a, b)
                   | None => None
                   end
       end.

(** [re.split(pat, s)] with a case-insensitive literal pattern; [cur] is the
    current chunk (reversed), [skip] the characters of a match still to pass. *)
Fixpoint split_go (pat : str) (skip : nat) (cur : str) (s : str) : list str :=
  match s with
  | [] => [rev cur]
  | c :: r =>
      match skip with
      | S k => split_go pat k cur r
      | O => if ci_prefix pat s then rev cur :: split_go pat (length pat - 1) [] r
             else split_go pat 0 (c :: cur) r
      end
  end.
Definition split_ci (pat s : str) : list str := split_go pat 0 [] s.

Definition eoh : str := s_ "<eoh>".
Definition eor : str := s_ "<eor>".

Fixpoint span (p : ascii -> bool) (s : str) : str * str :=
  match s with
  | c :: r => if p c then let '(a, b) := span p r in (c :: a, b) else ([], s)
  | [] => ([], [])
  end.

Definition is_name_char (c : ascii) : bool :=
  is_alpha c || is_digit c || Ascii.eqb c "_"%char.

(** One match of the tag pattern of [parse_adif]: a name of letters, digits
    and underscores, a decimal length, an optional [:TYPECODE] up to [>],
    then the value, which runs up to the next [<]. *)
Record tag := mk_tag { t_name : str; t_len : nat; t_value : str }.

(** The match anchored at the start of [s], with the text after it. *)
Definition match_at (s : str) : option (tag * str) :=
  match s with
  | c :: r =>
    if Ascii.eqb c "<"%char then
      let '(name, r1) := span is_name_char r in
      match name, r1 with
      | _ :: _, c1 :: r2 =>
        if Ascii.eqb c1 ":"%char then
          let '(digs, r3) := span is_digit r2 in
          let after_gt :=
            match r3 with
            | c3 :: r5 =>
                if Ascii.eqb c3 ":"%char then
                  let '(_, r6) := span (fun x => negb (Ascii.eqb x ">"%char)) r5 in
                  match r6 with
                  | c6 :: r7 => if Ascii.eqb c6 ">"%char then Some r7 else None
                  | [] => None
                  end
                else if Ascii.eqb c3 ">"%char then Some r5 else None
            | [] => None
            end in
          match digs, after_gt with
          | _ :: _, Some r4 =>
              let '(val, rest) := span (fun x => negb (Ascii.eqb x "<"%char)) r4 in
              Some (mk_tag name (Z.to_nat (digits_value digs)) val, rest)
          | _, _ => None
          end
        else None
      | _, _ => None
      end
    else None
  | [] => None
  end.

(** [field_pat.finditer(s)]: leftmost non-overlapping matches, scanning
    resumes at the end of each match.  The fuel [length s] suffices since
    every step consumes at least one character. *)
Fixpoint finditer_fuel (fuel : nat) (s : str) : list tag :=
  match fuel with
  | O => []
  | S f =>
      match s with
      | [] => []
      | _ :: r =>
          match match_at s with
          | Some (m, rest) => m :: finditer_fuel f rest
          | None => finditer_fuel f r
          end
      end
  end.
Definition finditer (s : str) : list tag := finditer_fuel (length s) s.

(** [entry[name] = value.strip()] for every match, in order. *)
Definition store (entry : gmap str str) (m : tag) : gmap str str :=
  <[upper (t_name m) := strip (take (t_len m) (t_value m))]> entry.
Definition entry_of (ms : list tag) : gmap str str := fold_left store ms ∅.

(** The loop body over [raw_recs]: [None] is a [continue] or a chunk whose
    entry stayed empty. *)
Definition chunk_record (raw0 : str) : option (gmap str str) :=
  let raw := strip raw0 in
  match raw with
  | [] => None
  | _ => let entry := entry_of (finditer raw) in
         if decide (entry = ∅) then None else Some entry
  end.

Definition header_data (content : str) : str :=
  match search_ci eoh content with
  | Some (_, after) => after
  | None => content
  end.

Definition parse_data (data : str) : list (gmap str str) :=
  omap chunk_record (split_ci eor data).

Definition parse_adif (content : str) : list (gmap str str) :=
  parse_data (header_data content).

End Adif.
Import Adif.

(** ** [dxcc.py] *)
Module Dxcc.

(** [PREFIX_COUNTRY], in its insertion (iteration) order. *)
Definition PREFIX_COUNTRY_lit : list (string * string) := [
  ("K", "United States"); ("N", "United States"); ("W", "United States");
  ("AA", "United States"); ("AB", "United States"); ("AC", "United States");
  ("AD", "United States"); ("AE", "United States"); ("AF", "United States");
  ("AG", "United States"); ("AI", "United States"); ("AJ", "United States");
  ("AK", "United States"); ("AL", "United States");
  ("VE", "Canada"); ("VA", "Canada"); ("VO", "Canada"); ("VY", "Canada");
  ("XE", "Mexico");
  ("G", "England"); ("M", "England"); ("GM", "Scotland"); ("GW", "Wales");
  ("GI", "Northern Ireland"); ("GD", "Isle of Man"); ("GU", "Guernsey");
  ("GJ", "Jersey"); ("DL", "Germany"); ("F", "France"); ("I", "Italy");
  ("EA", "Spain"); ("CT", "Portugal"); ("OH", "Finland"); ("SM", "Sweden");
  ("LA", "Norway"); ("OZ", "Denmark"); ("ON", "Belgium"); ("PA", "Netherlands");
  ("OE", "Austria"); ("OK", "Czech Republic"); ("OM", "Slovak Republic");
  ("SP", "Poland"); ("YU", "Serbia"); ("S5", "Slovenia"); ("9A", "Croatia");
  ("HA", "Hungary"); ("YO", "Romania"); ("LZ", "Bulgaria"); ("SV", "Greece");
  ("JA", "Japan"); ("7J", "Japan"); ("7K", "Japan"); ("7M", "Japan");
  ("VK", "Australia"); ("ZL", "New Zealand"); ("BY", "China");
  ("VR", "Hong Kong"); ("HL", "Korea"); ("BV", "Taiwan"); ("9V", "Singapore");
  ("VU", "India"); ("HS", "Thailand");
  ("PY", "Brazil"); ("LU", "Argentina"); ("CX", "Uruguay"); ("CE", "Chile");
  ("ZS", "South Africa"); ("SU", "Egypt"); ("A4", "Oman"); ("A6", "UAE")]%string.

Definition PREFIX_COUNTRY : list (str * str) :=
  map (fun '(p, n) => (s_ p, s_ n)) PREFIX_COUNTRY_lit.

(** [s.startswith(pref)] *)
Fixpoint startswith (s pref : str) : bool :=
  match pref, s with
  | [], _ => true
  | p :: ps, c :: cs => Ascii.eqb p c && startswith cs ps
  | _ :: _, [] => false
  end.

(** One iteration of the loop over [PREFIX_COUNTRY.items()]. *)
Definition lookup_step (cs : str) (best : option (str * str)) (item : str * str)
  : option (str * str) :=
  let '(pref, name) := item in
  if startswith cs pref &&
     match best with None => true | Some (bp, _) => (length bp <? length pref)%nat end
  then Some (pref, name) else best.

(** [lookup_country(callsign)]; [None] stands for Python's [None]. *)
Definition lookup_country (callsign : option str) : option str :=
  match callsign with
  | Some ((_ :: _) as c) =>
      let cs := upper (strip c) in
      match fold_left (lookup_step cs) PREFIX_COUNTRY None with
      | Some (_, name) => Some name
      | None => None
      end
  | _ => None
  end.

End Dxcc.
Import Dxcc.

(** ** The rest of [build_map] and its helpers, [map_builder.py] *)
Module MapBuilder.

Abbreviation record := (gmap str str).

(** [(rec.get(key) or "").strip().upper()] *)
Definition field_norm (rec : record) (key : string) : str :=
  upper (strip (match rec !! s_ key with Some v => v | None => [] end)).

(** [s or "OTHER"] *)
Definition or_other (s : str) : str := match s with [] => s_ "OTHER" | _ => s end.

(** [d.get(k, default)] on a dict literal with distinct keys. *)
Fixpoint dict_get (d : list (str * str)) (k default : str) : str :=
  match d with
  | [] => default
  | (k', v) :: r => if decide (k' = k) then v else dict_get r k default
  end.

Definition lit_dict (l : list (string * string)) : list (str * str) :=
  map (fun '(k, v) => (s_ k, s_ v)) l.

(** [format_popup]: the fields below, in this order, as
    [<b>KEY</b>: value] joined by [<br>], then the QRZ and Club Log links.
    The separator between the links is U+00B7, the Latin-1 code point 183. *)
Definition popup_keys : list string :=
  ["CALL"; "QSO_DATE"; "TIME_ON"; "BAND"; "FREQ"; "MODE"; "RST_SENT"; "RST_RCVD";
   "COUNTRY"; "GRIDSQUARE"; "LAT"; "LON"]%string.

(** [sep.join(l)] *)
Fixpoint join (sep : str) (l : list str) : str :=
  match l with
  | [] => []
  | [x] => x
  | x :: r => x ++ sep ++ join sep r
  end.

Definition middle_dot : ascii := ascii_of_nat 183.

(** [if value: fields.append(f"<b>{key}</b>: {value}")] *)
Definition popup_field (entry : record) (key : string) : option str :=
  match entry !! s_ key with
  | Some ((_ :: _) as v) => Some (s_ "<b>" ++ s_ key ++ s_ "</b>: " ++ v)
  | _ => None
  end.

Definition format_popup (entry : record) : str :=
  let call := match entry !! s_ "CALL" with Some v => v | None => s_ "QSO" end in
  let qrz := s_ "https://www.qrz.com/lookup/" ++ call in
  let clublog := s_ "https://clublog.org/logsearch/" ++ call in
  let fields := omap (popup_field entry) popup_keys in
  let links :=
    s_ "<div style='margin-top:6px'>" ++
    s_ "<a href='" ++ qrz ++ s_ "' target='_blank' rel='noopener'>QRZ</a> " ++
    [middle_dot] ++ s_ " " ++
    s_ "<a href='" ++ clublog ++ s_ "' target='_blank' rel='noopener'>Club Log</a>" ++
    s_ "</div>" in
  (match fields with [] => s_ "<i>No details</i>" | _ => join (s_ "<br>") fields end) ++ links.

Definition BAND_COLORS : list (str * str) := lit_dict [
  ("160M", "darkpurple"); ("80M", "darkred"); ("60M", "lightred");
  ("40M", "orange"); ("30M", "beige"); ("20M", "blue"); ("17M", "lightblue");
  ("15M", "green"); ("12M", "lightgreen"); ("10M", "cadetblue");
  ("6M", "purple"); ("4M", "pink"); ("2M", "darkgreen"); ("1.25M", "lightgray");
  ("70CM", "gray"); ("33CM", "black"); ("23CM", "darkblue")]%string.

Definition MODE_COLORS : list (str * str) := lit_dict [
  ("SSB", "blue"); ("CW", "darkred"); ("FT8", "green"); ("FT4", "purple");
  ("FM", "orange"); ("RTTY", "darkpurple"); ("AM", "gray")]%string.

Definition DEFAULT_COLOR : str := s_ "gray".

Abbreviation point := (Q * Q * record)%type.

Definition point_rec (p : point) : record := snd p.

(** [use_band_layers] and [use_mode_layers] *)
Definition use_band_layers (layers_by_band : bool) : bool := layers_by_band.
Definition use_mode_layers (layers_by_band layers_by_mode : bool) : bool :=
  layers_by_mode && negb layers_by_band.

(** The group keys of [band_groups] (resp. [mode_groups]) in creation order. *)
Definition groups_of (key : string) (points : list point) : list str :=
  fold_left (fun gs p =>
      let k := or_other (field_norm (point_rec p) key) in
      if decide (k ∈ gs) then gs else gs ++ [k]) points [].

(** [color] of a marker in the plotting loop. *)
Definition marker_color (layers_by_band layers_by_mode : bool) (rec : record) : str :=
  let band := field_norm rec "BAND" in
  let mode := field_norm rec "MODE" in
  let color_band := dict_get BAND_COLORS band DEFAULT_COLOR in
  let color_mode := dict_get MODE_COLORS mode DEFAULT_COLOR in
  let color := if use_band_layers layers_by_band then color_mode else color_band in
  if use_mode_layers layers_by_band layers_by_mode then color_mode else color.

Inductive parent := BandGroup (k : str) | ModeGroup (k : str).

(** [parent] of a marker: the group found by [.get], or [None]. *)
Definition marker_parent (layers_by_band layers_by_mode : bool)
    (band_groups mode_groups : list str) (rec : record) : option parent :=
  let band := field_norm rec "BAND" in
  let mode := field_norm rec "MODE" in
  if use_band_layers layers_by_band then
    if decide (or_other band ∈ band_groups) then Some (BandGroup (or_other band)) else None
  else if use_mode_layers layers_by_band layers_by_mode then
    if decide (or_other mode ∈ mode_groups) then Some (ModeGroup (or_other mode)) else None
  else None.

(** [by_band_colors] (resp. [by_mode_colors]): legend pairs. *)
Definition legend_pairs (key : string) (colors : list (str * str)) (points : list point)
  : list (str * str) :=
  fold_left (fun acc p =>
      let v := field_norm (point_rec p) key in
      match v with
      | [] => acc
      | _ => let pair := (v, dict_get colors v DEFAULT_COLOR) in
             if decide (pair ∈ acc) then acc else acc ++ [pair]
      end) points [].

(** [d.setdefault(k, []).append(x)] on a dict of lists. *)
Fixpoint setdefault_append {A} (k : str) (x : A) (d : list (str * list A)) : list (str * list A) :=
  match d with
  | [] => [(k, [x])]
  | (k', xs) :: r => if decide (k' = k) then (k', xs ++ [x]) :: r
                     else (k', xs) :: setdefault_append k x r
  end.

(** [heat_by_band] (resp. [heat_by_mode]). *)
Definition heat_by (key : string) (points : list point) : list (str * list (Q * Q)) :=
  fold_left (fun d p =>
      let '(lat, lon, rec) := p in
      setdefault_append (or_other (field_norm rec key)) (lat, lon) d) points [].

(** The legend added at the end of [build_map]: the mode legend with band
    or mode layers, the band legend otherwise. *)
Definition legend_shown (layers_by_band layers_by_mode : bool) (points : list point)
  : list (str * str) :=
  if use_band_layers layers_by_band then legend_pairs "MODE" MODE_COLORS points
  else if use_mode_layers layers_by_band layers_by_mode then legend_pairs "MODE" MODE_COLORS points
  else legend_pairs "BAND" BAND_COLORS points.

(** [by_band] (resp. [by_mode]) in [_stats_panel]. *)
Definition count_by (key : string) (entries : list record) : gmap str nat :=
  fold_left (fun d e =>
      let b := or_other (field_norm e key) in
      <[b := (default 0 (d !! b) + 1)%nat]> d) entries ∅.

Inductive exit_or (A : Type) := SystemExit (msg : string) | Ok (a : A).
Arguments SystemExit {A} msg.
Arguments Ok {A} a.

(** The exit test and the map centre at the head of [build_map]. *)
Definition map_center (points : list point) (home_latlon : option (Q * Q)) : exit_or (Q * Q) :=
  match points, home_latlon with
  | [], None => SystemExit "No plottable QSO locations found (no LAT/LON or GRIDSQUARE)."
  | _, Some h => Ok h
  | _, None =>
      let n := inject_Z (Z.of_nat (length points)) in
      Ok (fold_left Qplus (map (fun p => fst (fst p)) points) 0 / n,
          fold_left Qplus (map (fun p => snd (fst p)) points) 0 / n)%Q
  end.

(** The time-slider stamp of a record, when [len(d) == 8]. *)
Definition time_stamp (rec : record) : option str :=
  let d := strip (match rec !! s_ "QSO_DATE" with Some v => v | None => [] end) in
  let t := strip (match rec !! s_ "TIME_ON" with Some v => v | None => [] end) in
  if (length d =? 8)%nat then
    let y := take 4 d in
    let m := slice d 4 6 in
    let day := slice d 6 8 in
    let hh := if (2 <=? length t)%nat then take 2 t else s_ "00" in
    let mm := if (4 <=? length t)%nat then slice t 2 4 else s_ "00" in
    let ss := if (6 <=? length t)%nat then slice t 4 6 else s_ "00" in
    Some (y ++ s_ "-" ++ m ++ s_ "-" ++ day ++ s_ "T" ++ hh ++ s_ ":" ++ mm ++
          s_ ":" ++ ss ++ s_ "Z")
  else None.

(** Python's ordering of strings: lexicographic on code points. *)
Fixpoint str_leb (a b : str) : bool :=
  match a, b with
  | [], _ => true
  | _ :: _, [] => false
  | x :: xs, y :: ys =>
      if (code x <? code y)%nat then true
      else if (code x =? code y)%nat then str_leb xs ys else false
  end.
Definition str_le (a b : str) : Prop := str_leb a b = true.
#[global] Instance str_le_dec : RelDecision str_le := fun a b => decide (str_leb a b = true).

(** [fieldnames = sorted(keys)] in [_export_csv]. *)
Definition csv_keys (entries : list record) : gset str :=
  fold_left (fun ks e => ks ∪ dom e) entries ∅.
Definition csv_fieldnames (entries : list record) : list str :=
  merge_sort str_le (elements (csv_keys entries)).

End MapBuilder.
Import MapBuilder.

(** ** [cli.py] *)
Module Cli.

(** The choice of [home_latlon] in [main]; [--home-lat]/[--home-lon] are
    already floats, [None] when not given. *)
Definition home_latlon (home_grid : option str) (home_lat home_lon : option Q)
  : exit_or (option (Q * Q)) :=
  match home_grid with
  | Some ((_ :: _) as g) =>
      match maidenhead_to_latlon g with
      | Some p => Ok (Some p)
      | None => SystemExit ("Could not parse home grid: " ++ string_of_list_ascii g)
      end
  | _ =>
      match home_lat, home_lon with
      | Some la, Some lo =>
          if Qle_bool (-90) la && Qle_bool la 90 && Qle_bool (-180) lo && Qle_bool lo 180
          then Ok (Some (la, lo))
          else SystemExit "Home lat/lon out of range."
      | _, _ => Ok None
      end
  end.

End Cli.
Import Cli.

(** ** Auxiliary definitions for the statements *)

(** A one-field record. *)
Definition record1 (k v : string) : gmap str str := <[s_ k := s_ v]> ∅.

(** A record paired with its resolved coordinate, as the reduction stores it. *)
Definition resolved (rec : gmap str str) : option (Q * Q * gmap str str) :=
  match best_latlon rec with
  | Some (lat, lon, _) => Some (lat, lon, rec)
  | None => None
  end.

(** The optional [:TYPECODE] part of a tag. *)
Definition typecode_text (tc : option str) : str :=
  match tc with None => [] | Some t => ":"%char :: t end.

(** A standard upper-case Maidenhead locator: field letters [A]-[R],
    square digits, subsquare letters [A]-[X] and extended-square digits,
    of 2, 4, 6 or 8 characters. *)
Definition field_letter (c : ascii) : bool := ((65 <=? code c) && (code c <=? 82))%nat.
Definition subsquare_letter (c : ascii) : bool := ((65 <=? code c) && (code c <=? 88))%nat.
Definition std_grid (g : str) : bool :=
  match g with
  | [a; b] => field_letter a && field_letter b
  | [a; b; c; d] => field_letter a && field_letter b && is_digit c && is_digit d
  | [a; b; c; d; e; f] =>
      field_letter a && field_letter b && is_digit c && is_digit d &&
      subsquare_letter e && subsquare_letter f
  | [a; b; c; d; e; f; h; i] =>
      field_letter a && field_letter b && is_digit c && is_digit d &&
      subsquare_letter e && subsquare_letter f && is_digit h && is_digit i
  | _ => false
  end.

(** * Properties *)

(** ** Concrete evaluations of the grid converter and the resolver *)

(** C1 (failing input): the record [{"GRIDSQUARE": "ZZ"}] resolves through
    the grid converter to latitude 165 and longitude 330, both outside the
    coordinate ranges; the grid path never range-checks. *)
Lemma C1_grid_out_of_range :
  best_latlon (record1 "GRIDSQUARE" "ZZ") = Some (330 # 2, 660 # 2, GRID)%Q /\
  in_range true (330 # 2) = false /\ in_range false (660 # 2) = false.
Proof. vm_compute. repeat split. Qed.

(** C2 (failing inputs): [maidenhead_to_latlon] returns a coordinate for
    ["12"] (digits where letters are required) and for ["FN20AAXX"]
    (letters where digits are required in positions 6 and 7). *)
Lemma C2_invalid_grids_accepted :
  maidenhead_to_latlon (s_ "12") = Some (-470 # 2, -980 # 2)%Q /\
  maidenhead_to_latlon (s_ "FN20AAXX") = Some (460824 # 11520, -875472 # 11520)%Q.
Proof. vm_compute. split; reflexivity. Qed.

(** C3 (counterexample): a longitude letter on a latitude string is not
    rejected: ["40.0W"] parsed as a latitude is [-40]. *)
Lemma C3_wrong_axis_suffix_accepted :
  parse_coord (s_ "40.0W") true = Some (-400 # 10)%Q.
Proof. vm_compute. reflexivity. Qed.

(** C4 (counterexample): the centre of ["FN20"] is not within 0.01 of
    [(41.0, -72.0)]. *)
Lemma C4_FN20_not_41_72 :
  ~ (exists lat lon, maidenhead_to_latlon (s_ "FN20") = Some (lat, lon) /\
       Qabs (lat - 41) <= 1 # 100 /\ Qabs (lon + 72) <= 1 # 100)%Q.
Proof.
  intros [lat [lon [H [H1 _]]]].
  vm_compute in H. injection H as <- <-.
  apply Qle_bool_iff in H1. vm_compute in H1. discriminate.
Qed.

(** C4 (amended): [maidenhead_to_latlon "FN20"] is the centre of the
    2 by 1 degree cell with lower-left corner (40, -76): latitude 40.5 and
    longitude -75.0. *)
Lemma C4_FN20_center :
  exists lat lon, maidenhead_to_latlon (s_ "FN20") = Some (lat, lon) /\
    (lat == 81 # 2)%Q /\ (lon == -75)%Q.
Proof. eexists _, _. split; [vm_compute; reflexivity|]. split; reflexivity. Qed.

(** ** Direct coordinate parsing *)

(** C3 (amended): after stripping, a trailing letter is upper-cased and
    judged the same way for both axes: [N] and [E] keep the magnitude, [S]
    and [W] negate it, any other letter makes the parse fail; without a
    letter the number keeps its own sign.  The signed value is then range
    checked for the axis. *)
Lemma parse_coord_suffix (text : str) (is_lat : bool) (x : Q) :
  strip text <> [] ->
  py_float (coord_val_str (strip text)) = Some x ->
  (forall c, coord_suffix (strip text) = Some c ->
     c = "N"%char \/ c = "E"%char ->
     parse_coord text is_lat = if in_range is_lat x then Some x else None) /\
  (forall c, coord_suffix (strip text) = Some c ->
     c = "S"%char \/ c = "W"%char ->
     parse_coord text is_lat = if in_range is_lat (- x) then Some (- x)%Q else None) /\
  (forall c, coord_suffix (strip text) = Some c ->
     c <> "N"%char -> c <> "E"%char -> c <> "S"%char -> c <> "W"%char ->
     parse_coord text is_lat = None) /\
  (coord_suffix (strip text) = None ->
     parse_coord text is_lat = if in_range is_lat x then Some x else None).
Proof.
  intros Hne Hx. unfold parse_coord.
  destruct (strip text) as [|ch rest] eqn:Hs; [contradiction|].
  rewrite Hx. repeat split.
  - intros c Hc Hce. rewrite Hc. unfold apply_suffix.
    destruct Hce as [-> | ->]; reflexivity.
  - intros c Hc Hce. rewrite Hc. unfold apply_suffix.
    destruct Hce as [-> | ->]; reflexivity.
  - intros c Hc HN HE HS HW. rewrite Hc. unfold apply_suffix.
    apply Ascii.eqb_neq in HN, HE, HS, HW.
    rewrite HN, HE, HS, HW. reflexivity.
  - intros Hc. rewrite Hc. reflexivity.
Qed.

Lemma parse_coord_suffix_witness :
  strip (s_ "40.0W") <> [] /\
  py_float (coord_val_str (strip (s_ "40.0W"))) = Some (400 # 10)%Q /\
  parse_coord (s_ "40.0W") true = Some (- (400 # 10))%Q.
Proof.
  split; [vm_compute; discriminate|]. split; [vm_compute; reflexivity|].
  destruct (parse_coord_suffix (s_ "40.0W") true (400 # 10)%Q)
    as [_ [HSW _]]; [vm_compute; discriminate | vm_compute; reflexivity |].
  rewrite (HSW "W"%char); [reflexivity | vm_compute; reflexivity | right; reflexivity].
Defined.

(** C9: [_parse_coord] returns only the signed parsed value and only when
    it lies in the axis's range; a well-formed value outside the range is
    rejected, not clamped ("95N" as a latitude); and a record whose
    LAT/LON pair is so rejected and which has no grid-square field
    resolves to nothing. *)
Lemma parse_coord_range_rejects :
  (forall (text : str) (is_lat : bool) (v : Q),
     parse_coord text is_lat = Some v ->
     exists x, py_float (coord_val_str (strip text)) = Some x /\
       apply_suffix (coord_suffix (strip text)) x = Some v /\
       in_range is_lat v = true) /\
  (forall (text : str) (is_lat : bool) (x v : Q),
     strip text <> [] ->
     py_float (coord_val_str (strip text)) = Some x ->
     apply_suffix (coord_suffix (strip text)) x = Some v ->
     in_range is_lat v = false ->
     parse_coord text is_lat = None) /\
  parse_coord (s_ "95N") true = None /\
  (forall (entry : gmap str str) (la lo : str),
     entry !! s_ "LAT" = Some la -> entry !! s_ "LON" = Some lo ->
     parse_coord la true = None \/ parse_coord lo false = None ->
     entry !! s_ "GRIDSQUARE" = None -> entry !! s_ "MY_GRIDSQUARE" = None ->
     best_latlon entry = None).
Proof.
  split; [|split; [|split]].
  - intros text is_lat v H. unfold parse_coord in H.
    destruct (strip text) as [|ch rest]; [discriminate|].
    destruct (py_float _) as [x|]; [|discriminate].
    destruct (apply_suffix _ x) as [w|] eqn:Hw; [|discriminate].
    destruct (in_range is_lat w) eqn:Hr; [|discriminate].
    injection H as <-. eauto.
  - intros text is_lat x v Hne Hx Hv Hr. unfold parse_coord.
    destruct (strip text) as [|ch rest]; [contradiction|].
    rewrite Hx, Hv, Hr. reflexivity.
  - vm_compute. reflexivity.
  - intros entry la lo Hla Hlo Hbad Hg Hmg. unfold best_latlon.
    rewrite Hla, Hlo, Hg, Hmg.
    assert (parse_latlon la lo = None) as ->.
    { unfold parse_latlon.
      destruct Hbad as [-> | ->]; [reflexivity|].
      destruct (parse_coord la true); reflexivity. }
    destruct (truthy (Some la) && truthy (Some lo)); reflexivity.
Qed.

Lemma parse_coord_range_rejects_witness :
  best_latlon (<[s_ "LAT" := s_ "95N"]> (record1 "LON" "074.0W")) = None.
Proof.
  destruct parse_coord_range_rejects as [_ [_ [_ H]]].
  apply (H _ (s_ "95N") (s_ "074.0W"));
    [vm_compute; reflexivity | vm_compute; reflexivity
    | left; vm_compute; reflexivity | vm_compute; reflexivity
    | vm_compute; reflexivity].
Defined.

(** ** Resolution priority *)

(** C5: when LAT and LON are present, non-empty and parse to an in-range
    pair, [best_latlon] returns that pair tagged [LATLON], even though a
    GRIDSQUARE field is present. *)
Lemma best_latlon_prefers_direct (entry : gmap str str) (la lo g : str) (lat lon : Q) :
  entry !! s_ "LAT" = Some la -> la <> [] ->
  entry !! s_ "LON" = Some lo -> lo <> [] ->
  parse_latlon la lo = Some (lat, lon) ->
  entry !! s_ "GRIDSQUARE" = Some g ->
  best_latlon entry = Some (lat, lon, LATLON).
Proof.
  intros Hla Hla' Hlo Hlo' Hp _. unfold best_latlon.
  rewrite Hla, Hlo.
  destruct la as [|a la]; [contradiction|]. destruct lo as [|b lo]; [contradiction|].
  simpl. rewrite Hp. reflexivity.
Qed.

Lemma best_latlon_prefers_direct_witness :
  best_latlon (<[s_ "LAT" := s_ "40.00N"]> (<[s_ "LON" := s_ "074.0W"]>
                 (record1 "GRIDSQUARE" "JN58")))
  = Some (4000 # 100, - (740 # 10), LATLON)%Q.
Proof.
  apply (best_latlon_prefers_direct _ (s_ "40.00N") (s_ "074.0W") (s_ "JN58"));
    first [vm_compute; reflexivity | vm_compute; discriminate].
Defined.

(** C10: when LAT and LON are present and non-empty but their direct parse
    fails, [best_latlon] falls back to the grid field (GRIDSQUARE, or
    MY_GRIDSQUARE when GRIDSQUARE is missing or empty) and returns the
    converted grid coordinate tagged [GRID]. *)
Lemma best_latlon_falls_back_to_grid (entry : gmap str str) (la lo g : str) (lat lon : Q) :
  entry !! s_ "LAT" = Some la -> la <> [] ->
  entry !! s_ "LON" = Some lo -> lo <> [] ->
  parse_latlon la lo = None ->
  (entry !! s_ "GRIDSQUARE" = Some g \/
   (truthy (entry !! s_ "GRIDSQUARE") = false /\ entry !! s_ "MY_GRIDSQUARE" = Some g)) ->
  g <> [] ->
  maidenhead_to_latlon g = Some (lat, lon) ->
  best_latlon entry = Some (lat, lon, GRID).
Proof.
  intros Hla Hla' Hlo Hlo' Hp Hg Hg' Hm.
  assert (py_or (entry !! s_ "GRIDSQUARE") (entry !! s_ "MY_GRIDSQUARE") = Some g) as Hor.
  { unfold py_or. destruct Hg as [-> | [Ht ->]].
    - destruct g; [contradiction | reflexivity].
    - rewrite Ht. reflexivity. }
  unfold best_latlon. rewrite Hla, Hlo, Hor, Hp, Hm.
  destruct la as [|a la]; [contradiction|]. destruct lo as [|b lo]; [contradiction|].
  destruct g as [|c g]; [contradiction|]. reflexivity.
Qed.

Lemma best_latlon_falls_back_to_grid_witness :
  best_latlon (<[s_ "LAT" := s_ "95N"]> (<[s_ "LON" := s_ "074.0W"]>
                 (record1 "GRIDSQUARE" "FN20")))
  = Some (81 # 2, -150 # 2, GRID)%Q.
Proof.
  apply (best_latlon_falls_back_to_grid _ (s_ "95N") (s_ "074.0W") (s_ "FN20"));
    first [vm_compute; reflexivity | vm_compute; discriminate
          | left; vm_compute; reflexivity].
Defined.

(** ** Record reduction *)

Lemma reduce_fold (records : list (gmap str str)) points skipped :
  fold_left reduce_step records (points, skipped) =
  (points ++ omap resolved records,
   skipped + length (filter (fun r => best_latlon r = None) records))%nat.
Proof.
  revert points skipped. induction records as [|r rs IH]; intros points skipped.
  - simpl. rewrite app_nil_r, Nat.add_0_r. reflexivity.
  - simpl. unfold resolved at 1. destruct (best_latlon r) as [[[lat lon] src]|] eqn:Hb.
    + rewrite IH. rewrite filter_cons_False by congruence.
      rewrite <- app_assoc. reflexivity.
    + rewrite IH. rewrite filter_cons_True by exact Hb. simpl.
      rewrite Nat.add_succ_r. reflexivity.
Qed.

Lemma omap_resolved_cons (r : gmap str str) (rs : list (gmap str str)) :
  omap resolved (r :: rs) =
  match resolved r with Some y => y :: omap resolved rs | None => omap resolved rs end.
Proof. reflexivity. Qed.

Lemma omap_resolved_length (records : list (gmap str str)) :
  (length (omap resolved records) +
   length (filter (fun r => best_latlon r = None) records))%nat = length records.
Proof.
  induction records as [|r rs IH]; [reflexivity|].
  rewrite omap_resolved_cons. unfold resolved at 1.
  destruct (best_latlon r) as [[[lat lon] src]|] eqn:Hb.
  - rewrite filter_cons_False by congruence. cbn [length]. lia.
  - rewrite filter_cons_True by exact Hb. cbn [length]. lia.
Qed.

(** C8: the reduction keeps, in input order, exactly the records that
    resolve (paired with their coordinate), counts one skip per record that
    does not, the two counts add up to the number of records, and when no
    record resolves the point list is empty and every record is skipped. *)
Theorem reduce_records_spec (records : list (gmap str str)) :
  fst (reduce_records records) = omap resolved records /\
  snd (reduce_records records) =
    length (filter (fun r => best_latlon r = None) records) /\
  (length (fst (reduce_records records)) + snd (reduce_records records))%nat =
    length records /\
  ((forall r, r ∈ records -> best_latlon r = None) ->
   fst (reduce_records records) = [] /\ snd (reduce_records records) = length records).
Proof.
  unfold reduce_records. rewrite reduce_fold. simpl.
  split; [reflexivity|]. split; [reflexivity|].
  split; [apply omap_resolved_length|].
  intros Hall.
  assert (omap resolved records = []) as Hnil.
  { induction records as [|r rs IH]; [reflexivity|].
    simpl. unfold resolved at 1.
    rewrite (Hall r) by (left; reflexivity).
    apply IH. intros r' Hr'. apply Hall. right. exact Hr'. }
  split; [exact Hnil|].
  pose proof (omap_resolved_length records) as Hl. rewrite Hnil in Hl. exact Hl.
Qed.

Lemma reduce_records_spec_witness :
  fst (reduce_records [record1 "CALL" "X"; record1 "LON" "1E"]) = [] /\
  snd (reduce_records [record1 "CALL" "X"; record1 "LON" "1E"]) = 2%nat.
Proof.
  destruct (reduce_records_spec [record1 "CALL" "X"; record1 "LON" "1E"])
    as [_ [_ [_ H]]].
  apply H. intros r Hr.
  repeat (apply elem_of_cons in Hr as [-> | Hr]; [vm_compute; reflexivity|]).
  apply not_elem_of_nil in Hr. contradiction.
Defined.

(** ** The ADIF tag scanner *)

Lemma span_app (p : ascii -> bool) (w rest : str) :
  forallb p w = true ->
  (match rest with [] => true | c :: _ => negb (p c) end) = true ->
  span p (w ++ rest) = (w, rest).
Proof.
  intros Hw Hr. induction w as [|c w IH]; simpl.
  - destruct rest as [|c r]; [reflexivity|].
    simpl. apply negb_true_iff in Hr. rewrite Hr. reflexivity.
  - simpl in Hw. apply andb_true_iff in Hw as [Hc Hw].
    rewrite Hc, (IH Hw). reflexivity.
Qed.

(** What a matched tag is: the text [<NAME:LENGTH[:TYPECODE]>VALUE], with
    VALUE running up to the next [<] or the end of the text. *)
Lemma match_at_tag (name digs val rest : str) (tc : option str) :
  name <> [] -> forallb is_name_char name = true ->
  digs <> [] -> forallb is_digit digs = true ->
  forallb (fun x => negb (Ascii.eqb x ">"%char)) (default [] tc) = true ->
  forallb (fun x => negb (Ascii.eqb x "<"%char)) val = true ->
  (match rest with [] => true | c :: _ => Ascii.eqb c "<"%char end) = true ->
  match_at ("<"%char :: name ++ ":"%char :: digs ++ typecode_text tc ++
            ">"%char :: val ++ rest) =
  Some (mk_tag name (Z.to_nat (digits_value digs)) val, rest).
Proof.
  intros Hn Hn' Hd Hd' Htc Hv Hr. unfold match_at.
  change (Ascii.eqb "<" "<")%char with true. cbv iota beta.
  rewrite (span_app is_name_char name) by (exact Hn' || reflexivity).
  destruct name as [|n0 name]; [contradiction|].
  change (Ascii.eqb ":" ":")%char with true. cbv iota beta.
  destruct tc as [t|]; simpl typecode_text.
  - rewrite (span_app is_digit digs) by (exact Hd' || reflexivity).
    destruct digs as [|d0 digs]; [contradiction|]. cbn [app].
    change (Ascii.eqb ":" ":")%char with true. cbv iota beta.
    rewrite (span_app _ t) by (exact Htc || reflexivity).
    change (Ascii.eqb ">" ">")%char with true. cbv iota beta.
    rewrite (span_app _ val); [reflexivity | exact Hv |].
    destruct rest as [|c r]; [reflexivity|]. simpl in Hr |- *. rewrite Hr. reflexivity.
  - rewrite (span_app is_digit digs) by (exact Hd' || reflexivity).
    destruct digs as [|d0 digs]; [contradiction|]. cbn [app].
    change (Ascii.eqb ">" ":")%char with false.
    change (Ascii.eqb ">" ">")%char with true. cbv iota beta.
    rewrite (span_app _ val); [reflexivity | exact Hv |].
    destruct rest as [|c r]; [reflexivity|]. simpl in Hr |- *. rewrite Hr. reflexivity.
Qed.

Lemma fold_store_other (ms : list tag) (e : gmap str str) (k : str) :
  (forall m', m' ∈ ms -> upper (t_name m') <> k) ->
  fold_left store ms e !! k = e !! k.
Proof.
  revert e. induction ms as [|m ms IH]; intros e H; [reflexivity|].
  simpl. rewrite IH.
  - unfold store. apply lookup_insert_ne. apply H. left.
  - intros m' Hm'. apply H. right. exact Hm'.
Qed.

Lemma entry_of_last (ms : list tag) (i : nat) (m : tag) :
  ms !! i = Some m ->
  (forall j m', (i < j)%nat -> ms !! j = Some m' -> upper (t_name m') <> upper (t_name m)) ->
  entry_of ms !! upper (t_name m) = Some (strip (take (t_len m) (t_value m))).
Proof.
  intros Hi Hlater. unfold entry_of.
  rewrite <- (take_drop_middle ms i m Hi), fold_left_app. simpl.
  rewrite fold_store_other.
  - unfold store. apply lookup_insert_eq.
  - intros m' Hm'. apply list_elem_of_lookup in Hm' as [j Hj].
    rewrite lookup_drop in Hj. apply (Hlater (S i + j)%nat); [lia | exact Hj].
Qed.

Lemma finditer_nil : finditer [] = [].
Proof. reflexivity. Qed.

(** C6: for every tag matched in a record chunk, the chunk yields a record
    that maps the upper-cased NAME to the first LENGTH characters of VALUE,
    stripped, unless a later tag of the chunk has the same upper-cased name
    (which overwrites it); a VALUE shorter than LENGTH is stored whole, and
    a LENGTH of 0 stores the empty string under a present key. *)
Theorem chunk_record_stores_tag (raw : str) (i : nat) (m : tag) :
  finditer (strip raw) !! i = Some m ->
  (forall j m', (i < j)%nat -> finditer (strip raw) !! j = Some m' ->
     upper (t_name m') <> upper (t_name m)) ->
  exists e, chunk_record raw = Some e /\
    e !! upper (t_name m) = Some (strip (take (t_len m) (t_value m))) /\
    ((length (t_value m) <= t_len m)%nat ->
       e !! upper (t_name m) = Some (strip (t_value m))) /\
    (t_len m = 0%nat -> e !! upper (t_name m) = Some []).
Proof.
  intros Hi Hlater.
  pose proof (entry_of_last _ i m Hi Hlater) as Hl.
  unfold chunk_record.
  destruct (strip raw) as [|ch rest] eqn:Hs.
  { rewrite finditer_nil in Hi. discriminate. }
  destruct (decide (entry_of (finditer (ch :: rest)) = ∅)) as [He|He].
  { rewrite He, lookup_empty in Hl. discriminate. }
  exists (entry_of (finditer (ch :: rest))). split; [reflexivity|].
  split; [exact Hl|]. split.
  - intros Hlen. rewrite take_ge in Hl by exact Hlen. exact Hl.
  - intros H0. rewrite H0 in Hl. exact Hl.
Qed.

Lemma chunk_record_stores_tag_witness :
  exists e, chunk_record (s_ " <CALL:5>TEST1<call:3:S>AB<X:0>foo ") = Some e /\
    e !! s_ "CALL" = Some (s_ "AB").
Proof.
  destruct (chunk_record_stores_tag (s_ " <CALL:5>TEST1<call:3:S>AB<X:0>foo ") 1
              (mk_tag (s_ "call") 3 (s_ "AB"))) as [e [He [Hl _]]].
  - vm_compute. reflexivity.
  - intros j m' Hj Hm'.
    destruct j as [|[|[|j]]]; try lia; vm_compute in Hm'.
    + injection Hm' as <-. vm_compute. discriminate.
    + discriminate.
  - exists e. split; [exact He | exact Hl].
Defined.

(** ** Marker search and record splitting *)

Lemma ci_prefix_lower (m u : str) : ci_prefix (map to_lower m) (m ++ u) = true.
Proof.
  induction m as [|c m IH]; [reflexivity|].
  simpl. rewrite IH, Ascii.eqb_refl. reflexivity.
Qed.

Lemma ci_prefix_app (pat t u : str) :
  ci_prefix pat (t ++ u) = true -> ci_prefix pat t = false ->
  (length t < length pat)%nat /\ ci_prefix (drop (length t) pat) u = true.
Proof.
  revert pat. induction t as [|c t IH]; intros pat H1 H2.
  - destruct pat; [discriminate|]. simpl. split; [lia | exact H1].
  - destruct pat as [|p ps]; [discriminate|].
    simpl in H1, H2. apply andb_true_iff in H1 as [Hc H1].
    rewrite Hc in H2. simpl in H2.
    destruct (IH ps H1 H2) as [Hl Hd]. simpl. split; [lia | exact Hd].
Qed.

Lemma search_ci_cons (pat : str) (c : ascii) (r : str) :
  search_ci pat (c :: r) =
  if ci_prefix pat (c :: r) then Some ([], drop (length pat) (c :: r))
  else match search_ci pat r with Some (a, b) => Some (c :: a, b) | None => None end.
Proof. reflexivity. Qed.

Lemma search_ci_none_cons (pat : str) (c : ascii) (r : str) :
  search_ci pat (c :: r) = None ->
  ci_prefix pat (c :: r) = false /\ search_ci pat r = None.
Proof.
  rewrite search_ci_cons.
  destruct (ci_prefix pat (c :: r)); [discriminate|].
  destruct (search_ci pat r) as [[a b]|]; [discriminate|]. auto.
Qed.

Lemma omap_cons_app {A B} (f : A -> option B) (x : A) (l : list A) :
  omap f (x :: l) = omap f [x] ++ omap f l.
Proof. simpl. destruct (f x); reflexivity. Qed.

Section Marker.

(** A marker that starts with [<] and has no other [<]. *)
Variable pat : str.
Hypothesis pat_head : head pat = Some "<"%char.
Hypothesis pat_inner : forall k c u, (1 <= k < length pat)%nat ->
  to_lower c = "<"%char -> ci_prefix (drop k pat) (c :: u) = false.

Lemma no_marker_before (c : ascii) (a m u : str) :
  search_ci pat (c :: a) = None -> map to_lower m = pat ->
  ci_prefix pat (c :: a ++ m ++ u) = false.
Proof.
  intros Hs Hm. apply search_ci_none_cons in Hs as [Hc _].
  destruct (ci_prefix pat (c :: a ++ m ++ u)) eqn:H; [|reflexivity].
  exfalso.
  destruct (ci_prefix_app pat (c :: a) (m ++ u) H Hc) as [Hlen Hd].
  destruct m as [|c0 m']; [subst pat; discriminate|].
  rewrite <- Hm in pat_head. injection pat_head as Hc0.
  simpl in Hd. rewrite (pat_inner (S (length a)) c0 (m' ++ u)) in Hd;
    [discriminate | simpl in Hlen |- *; lia | exact Hc0].
Qed.

Lemma search_marker (h m rest : str) :
  map to_lower m = pat -> search_ci pat h = None ->
  search_ci pat (h ++ m ++ rest) = Some (h, rest).
Proof.
  intros Hm. induction h as [|c h IH]; intros Hs.
  - destruct m as [|c0 m']; [subst pat; discriminate|].
    simpl app. rewrite search_ci_cons.
    change (c0 :: m' ++ rest) with ((c0 :: m') ++ rest).
    rewrite <- Hm, ci_prefix_lower.
    rewrite length_map, drop_app_length. reflexivity.
  - simpl app. rewrite search_ci_cons, (no_marker_before c h m rest Hs Hm).
    apply search_ci_none_cons in Hs as [_ Hs]. rewrite (IH Hs). reflexivity.
Qed.

Lemma split_skip (t : str) (cur b : str) :
  split_go pat (length t) cur (t ++ b) = split_go pat 0 cur b.
Proof. induction t as [|c t IH]; [reflexivity|]. simpl. exact IH. Qed.

Lemma split_marker (a m b : str) (cur : str) :
  map to_lower m = pat -> search_ci pat a = None ->
  split_go pat 0 cur (a ++ m ++ b) = (rev cur ++ a) :: split_go pat 0 [] b.
Proof.
  intros Hm. revert cur. induction a as [|c a IH]; intros cur Hs.
  - destruct m as [|c0 m']; [subst pat; discriminate|].
    simpl app. unfold split_go at 1; fold split_go.
    assert (ci_prefix pat ((c0 :: m') ++ b) = true) as Hci.
    { rewrite <- Hm. apply ci_prefix_lower. }
    assert (length pat = S (length m')) as Hlen.
    { rewrite <- Hm, length_map. reflexivity. }
    simpl app in Hci. rewrite Hci, Hlen, Nat.sub_1_r. simpl pred.
    rewrite split_skip, app_nil_r. reflexivity.
  - simpl app. unfold split_go at 1; fold split_go.
    rewrite (no_marker_before c a m b Hs Hm).
    apply search_ci_none_cons in Hs as [_ Hs]. rewrite (IH (c :: cur) Hs).
    simpl. rewrite <- app_assoc. reflexivity.
Qed.

Lemma split_no_marker (a cur : str) :
  search_ci pat a = None -> split_go pat 0 cur a = [rev cur ++ a].
Proof.
  revert cur. induction a as [|c a IH]; intros cur Hs.
  - simpl. rewrite app_nil_r. reflexivity.
  - apply search_ci_none_cons in Hs as [Hc Hs].
    unfold split_go; fold split_go. rewrite Hc, (IH (c :: cur) Hs).
    simpl. rewrite <- app_assoc. reflexivity.
Qed.

End Marker.

Lemma eoh_inner k c u : (1 <= k < length eoh)%nat ->
  to_lower c = "<"%char -> ci_prefix (drop k eoh) (c :: u) = false.
Proof.
  intros Hk Hc. destruct k as [|[|[|[|[|k]]]]]; simpl in Hk |- *;
    try lia; rewrite Hc; reflexivity.
Qed.

Lemma eor_inner k c u : (1 <= k < length eor)%nat ->
  to_lower c = "<"%char -> ci_prefix (drop k eor) (c :: u) = false.
Proof.
  intros Hk Hc. destruct k as [|[|[|[|[|k]]]]]; simpl in Hk |- *;
    try lia; rewrite Hc; reflexivity.
Qed.

(** C7: [<eoh>] and [<eor>] are recognised in any letter case.  Up to the
    first end-of-header marker everything is dropped; without one the whole
    text is data.  Each end-of-record marker closes one chunk, and the
    chunks give their records in order.  A chunk that is empty after
    stripping, or in which no tag matches, gives no record, and any other
    chunk gives the record built from its tags. *)
Theorem parse_adif_markers :
  (forall h m rest : str, map to_lower m = eoh -> search_ci eoh h = None ->
     parse_adif (h ++ m ++ rest) = parse_data rest) /\
  (forall content : str, search_ci eoh content = None ->
     parse_adif content = parse_data content) /\
  (forall a m b : str, map to_lower m = eor -> search_ci eor a = None ->
     parse_data (a ++ m ++ b) = omap chunk_record [a] ++ parse_data b) /\
  (forall a : str, search_ci eor a = None ->
     parse_data a = omap chunk_record [a]) /\
  (forall raw : str, strip raw = [] \/ finditer (strip raw) = [] ->
     chunk_record raw = None) /\
  (forall raw : str, finditer (strip raw) <> [] ->
     chunk_record raw = Some (entry_of (finditer (strip raw)))).
Proof.
  split; [|split; [|split; [|split; [|split]]]].
  - intros h m rest Hm Hh. unfold parse_adif, header_data.
    rewrite (search_marker eoh eq_refl eoh_inner h m rest Hm Hh). reflexivity.
  - intros content Hc. unfold parse_adif, header_data. rewrite Hc. reflexivity.
  - intros a m b Hm Ha. unfold parse_data, split_ci.
    rewrite (split_marker eor eq_refl eor_inner a m b [] Hm Ha).
    apply omap_cons_app.
  - intros a Ha. unfold parse_data, split_ci.
    rewrite (split_no_marker eor a [] Ha). reflexivity.
  - intros raw [H | H]; unfold chunk_record.
    + rewrite H. reflexivity.
    + destruct (strip raw); [reflexivity|]. rewrite H. reflexivity.
  - intros raw H. unfold chunk_record.
    destruct (strip raw) as [|ch rest]; [contradiction|].
    destruct (finditer (ch :: rest)) as [|m ms] eqn:Hf; [contradiction|].
    destruct (decide (entry_of (m :: ms) = ∅)) as [He|He]; [|reflexivity].
    exfalso. destruct (lookup_lt_is_Some_2 (m :: ms) (length ms)) as [ml Hml].
    { simpl. lia. }
    assert (Hlast : entry_of (m :: ms) !! upper (t_name ml) =
                    Some (strip (take (t_len ml) (t_value ml)))).
    { apply (entry_of_last _ (length ms)); [exact Hml|].
      intros j m' Hj Hm'. apply lookup_lt_Some in Hm'. simpl in Hm'. lia. }
    rewrite He, lookup_empty in Hlast. discriminate.
Qed.

Lemma parse_adif_markers_witness :
  parse_adif (s_ "<ADIF_VER:5>3.1.0" ++ s_ "<EoH>" ++ s_ "<CALL:2>K1<eOr>")
  = parse_data (s_ "<CALL:2>K1<eOr>") /\
  parse_data (s_ " <CALL:2>K1 " ++ s_ "<EOR>" ++ s_ "<CALL:2>K2<eor>")
  = omap chunk_record [s_ " <CALL:2>K1 "] ++ parse_data (s_ "<CALL:2>K2<eor>") /\
  chunk_record (s_ " stray text ") = None.
Proof.
  destruct parse_adif_markers as [H1 [_ [H3 [_ [H5 _]]]]].
  split; [|split].
  - apply H1; vm_compute; reflexivity.
  - apply H3; vm_compute; reflexivity.
  - apply H5. right. vm_compute. reflexivity.
Defined.

(** * Further properties of the code *)

(** ** Character and string lemmas *)

Lemma to_upper_to_lower (c : ascii) : to_upper (to_lower c) = to_upper c.
Proof. destruct c as [[] [] [] [] [] [] [] []]; vm_compute; reflexivity. Qed.

Lemma to_upper_idem (c : ascii) : to_upper (to_upper c) = to_upper c.
Proof. destruct c as [[] [] [] [] [] [] [] []]; vm_compute; reflexivity. Qed.

Lemma is_space_to_lower (c : ascii) : is_space (to_lower c) = is_space c.
Proof. destruct c as [[] [] [] [] [] [] [] []]; vm_compute; reflexivity. Qed.

Lemma lstrip_map (f : ascii -> ascii) (s : str) :
  (forall c, is_space (f c) = is_space c) -> lstrip (map f s) = map f (lstrip s).
Proof.
  intros Hf. induction s as [|c s IH]; [reflexivity|].
  simpl. rewrite Hf. destruct (is_space c); [exact IH | reflexivity].
Qed.

Lemma strip_map (f : ascii -> ascii) (s : str) :
  (forall c, is_space (f c) = is_space c) -> strip (map f s) = map f (strip s).
Proof.
  intros Hf. unfold strip, rstrip.
  rewrite lstrip_map by exact Hf. rewrite <- map_rev, lstrip_map by exact Hf.
  symmetry. apply map_rev.
Qed.

Lemma upper_strip_lower (s : str) : upper (strip (map to_lower s)) = upper (strip s).
Proof.
  rewrite strip_map by apply is_space_to_lower. unfold upper.
  rewrite map_map. apply map_ext. apply to_upper_to_lower.
Qed.

(** ** [lookup_country] *)

Lemma lookup_step_cases (cs p0 n0 : str) (acc : option (str * str)) :
  (startswith cs p0 = true /\
   (forall bp bn, acc = Some (bp, bn) -> (length bp < length p0)%nat) /\
   lookup_step cs acc (p0, n0) = Some (p0, n0)) \/
  (lookup_step cs acc (p0, n0) = acc /\
   (startswith cs p0 = true ->
      exists bp bn, acc = Some (bp, bn) /\ (length p0 <= length bp)%nat)).
Proof.
  unfold lookup_step. destruct (startswith cs p0) eqn:Hs.
  - destruct acc as [[bp bn]|].
    + simpl. destruct (length bp <? length p0)%nat eqn:Hlt.
      * left. apply Nat.ltb_lt in Hlt. split; [reflexivity|].
        split; [intros ? ? E; injection E as <- <-; exact Hlt | reflexivity].
      * right. apply Nat.ltb_ge in Hlt. split; [reflexivity|].
        intros _. exists bp, bn. split; [reflexivity | exact Hlt].
    + left. split; [reflexivity|]. split; [intros ? ? E; discriminate | reflexivity].
  - right. split; [reflexivity | intros E; discriminate].
Qed.

Lemma lookup_fold (cs : str) (l : list (str * str)) (acc : option (str * str)) :
  (forall p n, fold_left (lookup_step cs) l acc = Some (p, n) ->
     acc = Some (p, n) \/ ((p, n) ∈ l /\ startswith cs p = true)) /\
  (forall p' n', (p', n') ∈ l -> startswith cs p' = true ->
     exists p n, fold_left (lookup_step cs) l acc = Some (p, n) /\ (length p' <= length p)%nat) /\
  (forall pa na, acc = Some (pa, na) ->
     exists p n, fold_left (lookup_step cs) l acc = Some (p, n) /\ (length pa <= length p)%nat).
Proof.
  revert acc. induction l as [|[p0 n0] l IH]; intros acc.
  - simpl. split; [auto|]. split.
    + intros p' n' Hin. apply not_elem_of_nil in Hin. contradiction.
    + intros pa na ->. exists pa, na. auto.
  - change (fold_left (lookup_step cs) ((p0, n0) :: l) acc)
      with (fold_left (lookup_step cs) l (lookup_step cs acc (p0, n0))).
    destruct (IH (lookup_step cs acc (p0, n0))) as [I1 [I2 I3]].
    destruct (lookup_step_cases cs p0 n0 acc) as [[Hs [Hlt E]] | [E Hdom]];
      rewrite E in I1, I2, I3; rewrite E.
    + split; [|split].
      * intros p n Hr. destruct (I1 p n Hr) as [E' | [Hin Hp]].
        -- injection E' as <- <-. right. split; [left | exact Hs].
        -- right. split; [right; exact Hin | exact Hp].
      * intros p' n' Hin Hp'. apply elem_of_cons in Hin as [E' | Hin].
        -- injection E' as -> ->. apply (I3 p0 n0 eq_refl).
        -- apply (I2 p' n' Hin Hp').
      * intros pa na Ea. specialize (Hlt pa na Ea).
        destruct (I3 p0 n0 eq_refl) as [p [n [Hr Hl]]].
        exists p, n. split; [exact Hr | lia].
    + split; [|split].
      * intros p n Hr. destruct (I1 p n Hr) as [E' | [Hin Hp]]; [left; exact E'|].
        right. split; [right; exact Hin | exact Hp].
      * intros p' n' Hin Hp'. apply elem_of_cons in Hin as [E' | Hin].
        -- injection E' as -> ->.
           destruct (Hdom Hp') as [bp [bn [Ea Hl]]].
           destruct (I3 bp bn Ea) as [p [n [Hr Hl']]].
           exists p, n. split; [exact Hr | lia].
        -- apply (I2 p' n' Hin Hp').
      * exact I3.
Qed.

Lemma lookup_country_cons (ch : ascii) (c : str) :
  lookup_country (Some (ch :: c)) =
  match fold_left (lookup_step (upper (strip (ch :: c)))) PREFIX_COUNTRY None with
  | Some (_, name) => Some name
  | None => None
  end.
Proof. reflexivity. Qed.

(** [lookup_country] returns the country of the longest prefix of the
    trimmed, upper-cased call sign found in [PREFIX_COUNTRY], and [None]
    exactly when the call sign is empty or no prefix of the table matches. *)
Theorem lookup_country_longest_prefix :
  (forall (c name : str), lookup_country (Some c) = Some name ->
     exists p, (p, name) ∈ PREFIX_COUNTRY /\ startswith (upper (strip c)) p = true /\
       forall p' n', (p', n') ∈ PREFIX_COUNTRY -> startswith (upper (strip c)) p' = true ->
         (length p' <= length p)%nat) /\
  (forall c : str, lookup_country (Some c) = None <->
     c = [] \/ forall p n, (p, n) ∈ PREFIX_COUNTRY -> startswith (upper (strip c)) p = false).
Proof.
  split.
  - intros c name H. destruct c as [|ch c]; [discriminate|].
    rewrite lookup_country_cons in H.
    destruct (fold_left _ _ None) as [[p n]|] eqn:Hf; [|discriminate].
    injection H as <-.
    destruct (lookup_fold (upper (strip (ch :: c))) PREFIX_COUNTRY None) as [I1 [I2 _]].
    destruct (I1 p n Hf) as [E | [Hin Hp]]; [discriminate|].
    exists p. split; [exact Hin|]. split; [exact Hp|].
    intros p' n' Hin' Hp'. destruct (I2 p' n' Hin' Hp') as [q [m [Hr Hl]]].
    rewrite Hf in Hr. injection Hr as <- <-. exact Hl.
  - intros c. destruct c as [|ch c]; [split; [left; reflexivity | reflexivity]|].
    rewrite lookup_country_cons.
    destruct (lookup_fold (upper (strip (ch :: c))) PREFIX_COUNTRY None) as [I1 [I2 _]].
    destruct (fold_left _ _ None) as [[p n]|] eqn:Hf; split.
    + discriminate.
    + intros [E | Hno]; [discriminate|].
      destruct (I1 p n eq_refl) as [E | [Hin Hp]]; [discriminate|].
      rewrite (Hno p n Hin) in Hp. discriminate.
    + intros _. right. intros p n Hin. destruct (startswith _ p) eqn:Hp; [|reflexivity].
      destruct (I2 p n Hin Hp) as [q [m [Hr _]]]. discriminate.
    + reflexivity.
Qed.

Lemma lookup_country_longest_prefix_witness :
  exists p, (p, s_ "Scotland") ∈ PREFIX_COUNTRY /\
    startswith (upper (strip (s_ "gm4abc"))) p = true /\
    forall p' n', (p', n') ∈ PREFIX_COUNTRY ->
      startswith (upper (strip (s_ "gm4abc"))) p' = true -> (length p' <= length p)%nat.
Proof.
  destruct lookup_country_longest_prefix as [H _].
  apply H. vm_compute. reflexivity.
Defined.

(** [lookup_country] ignores the letter case of the call sign, and gives
    [None] for a missing or empty call sign. *)
Theorem lookup_country_case_insensitive :
  (forall c : str, lookup_country (Some (map to_lower c)) = lookup_country (Some c)) /\
  lookup_country None = None /\ lookup_country (Some []) = None.
Proof.
  split; [|split; reflexivity].
  intros c. destruct c as [|ch c]; [reflexivity|].
  change (map to_lower (ch :: c)) with (to_lower ch :: map to_lower c).
  rewrite !lookup_country_cons.
  change (to_lower ch :: map to_lower c) with (map to_lower (ch :: c)).
  rewrite upper_strip_lower. reflexivity.
Qed.

(** ** [str.strip] *)

Definition starts_ok (s : str) : Prop :=
  match s with [] => True | c :: _ => is_space c = false end.

Lemma lstrip_starts_ok (s : str) : starts_ok (lstrip s).
Proof.
  induction s as [|c s IH]; simpl; [exact I|].
  destruct (is_space c) eqn:Hc; [exact IH | exact Hc].
Qed.

Lemma lstrip_id (s : str) : starts_ok s -> lstrip s = s.
Proof. destruct s as [|c s]; simpl; [reflexivity|]. intros ->. reflexivity. Qed.

Lemma lstrip_suffix (s : str) : exists p, s = p ++ lstrip s.
Proof.
  induction s as [|c s [p IH]]; simpl; [exists []; reflexivity|].
  destruct (is_space c); [exists (c :: p); simpl; congruence | exists []; reflexivity].
Qed.

Lemma strip_idem (s : str) : strip (strip s) = strip s.
Proof.
  unfold strip, rstrip.
  set (u := lstrip (rev (lstrip s))).
  assert (Hu : starts_ok u) by apply lstrip_starts_ok.
  assert (Hru : starts_ok (rev u)).
  { destruct (lstrip_suffix (rev (lstrip s))) as [p Hp]. fold u in Hp.
    assert (Ht : starts_ok (lstrip s)) by apply lstrip_starts_ok.
    destruct u as [|c u'] using rev_ind; simpl; [exact I|].
    rewrite rev_app_distr. simpl.
    apply (f_equal (@rev ascii)) in Hp. rewrite rev_involutive in Hp.
    rewrite Hp, !rev_app_distr in Ht. simpl in Ht. exact Ht. }
  rewrite (lstrip_id (rev u) Hru), rev_involutive, (lstrip_id u Hu). reflexivity.
Qed.

Lemma Forall_strip (P : ascii -> Prop) (s : str) : Forall P s -> Forall P (strip s).
Proof.
  intros H. unfold strip, rstrip. apply Forall_rev.
  destruct (lstrip_suffix (rev (lstrip s))) as [p Hp].
  destruct (lstrip_suffix s) as [q Hq].
  assert (H1 : Forall P (lstrip s)) by (rewrite Hq in H; apply Forall_app in H; tauto).
  apply Forall_rev in H1. rewrite Hp in H1. apply Forall_app in H1. tauto.
Qed.

(** ** Keys and values of [parse_adif] *)

Lemma is_name_char_to_upper (c : ascii) : is_name_char (to_upper c) = is_name_char c.
Proof. destruct c as [[] [] [] [] [] [] [] []]; vm_compute; reflexivity. Qed.

Lemma span_forall (p : ascii -> bool) (s : str) : Forall (fun c => p c = true) (fst (span p s)).
Proof.
  induction s as [|c s IH]; simpl; [constructor|].
  destruct (p c) eqn:Hc; [|constructor].
  destruct (span p s) as [a b]. simpl in *. constructor; assumption.
Qed.

Lemma match_at_inv (s : str) (m : tag) (rest : str) :
  match_at s = Some (m, rest) ->
  t_name m <> [] /\ Forall (fun c => is_name_char c = true) (t_name m) /\
  Forall (fun c => c <> "<"%char) (t_value m).
Proof.
  destruct s as [|c r]; [discriminate|]. unfold match_at.
  destruct (Ascii.eqb c "<"%char); [|discriminate].
  pose proof (span_forall is_name_char r) as Hn.
  destruct (span is_name_char r) as [name r1]. simpl in Hn.
  destruct name as [|n0 ns]; [discriminate|].
  destruct r1 as [|c1 r2]; [discriminate|].
  destruct (Ascii.eqb c1 ":"%char); [|discriminate].
  destruct (span is_digit r2) as [digs r3].
  destruct digs as [|d0 ds]; [discriminate|].
  match goal with |- (match ?a with Some _ => _ | None => _ end = _ -> _) =>
    destruct a as [r4|]; [|discriminate] end.
  pose proof (span_forall (fun x => negb (Ascii.eqb x "<"%char)) r4) as Hv.
  destruct (span _ r4) as [val rest'].
  intros H. injection H as <- <-. simpl in *.
  split; [discriminate|]. split; [exact Hn|].
  eapply Forall_impl; [exact Hv|]. intros x Hx E. subst x. discriminate.
Qed.

Lemma finditer_fuel_inv (P : tag -> Prop) :
  (forall s m rest, match_at s = Some (m, rest) -> P m) ->
  forall f s, Forall P (finditer_fuel f s).
Proof.
  intros HP f. induction f as [|f IH]; intros s; simpl; [constructor|].
  destruct s as [|c r]; [constructor|].
  destruct (match_at (c :: r)) as [[m rest]|] eqn:Hm; [|apply IH].
  constructor; [exact (HP _ _ _ Hm) | apply IH].
Qed.

Lemma fold_store_inv (ms : list tag) (e : gmap str str) (k v : str) :
  fold_left store ms e !! k = Some v ->
  e !! k = Some v \/
  exists m, m ∈ ms /\ k = upper (t_name m) /\ v = strip (take (t_len m) (t_value m)).
Proof.
  revert e. induction ms as [|m ms IH]; intros e; simpl; [auto|].
  intros H. destruct (IH _ H) as [H1 | [m' [Hin Hm']]].
  - unfold store in H1. apply lookup_insert_Some in H1 as [[<- <-] | [_ H1]].
    + right. exists m. split; [left | auto].
    + left. exact H1.
  - right. exists m'. split; [right; exact Hin | exact Hm'].
Qed.

Lemma parse_adif_record_inv (content : str) (r : gmap str str) :
  r ∈ parse_adif content ->
  r <> ∅ /\
  forall k v, r !! k = Some v ->
    exists m, k = upper (t_name m) /\ v = strip (take (t_len m) (t_value m)) /\
      t_name m <> [] /\ Forall (fun c => is_name_char c = true) (t_name m) /\
      Forall (fun c => c <> "<"%char) (t_value m).
Proof.
  unfold parse_adif, parse_data. intros Hr.
  apply list_elem_of_omap in Hr as [raw [_ Hc]].
  unfold chunk_record in Hc. cbv zeta in Hc.
  destruct (strip raw) as [|c l]; [discriminate|].
  destruct (decide (entry_of (finditer (c :: l)) = ∅)) as [_|Hne]; [discriminate|].
  injection Hc as <-. split; [exact Hne|].
  intros k v Hk. unfold entry_of in Hk.
  destruct (fold_store_inv _ _ _ _ Hk) as [H0 | [m [Hin [-> ->]]]].
  - rewrite lookup_empty in H0. discriminate.
  - exists m. split; [reflexivity|]. split; [reflexivity|].
    pose proof (finditer_fuel_inv
      (fun m => t_name m <> [] /\ Forall (fun c => is_name_char c = true) (t_name m) /\
                Forall (fun c => c <> "<"%char) (t_value m))
      match_at_inv (length (c :: l)) (c :: l)) as HF.
    rewrite Forall_forall in HF. exact (HF m Hin).
Qed.

(** Every record [parse_adif] returns has at least one field, and each
    field name in it is non-empty, upper case, and made only of ASCII
    letters, digits and underscores. *)
Theorem parse_adif_keys (content : str) (r : gmap str str) :
  r ∈ parse_adif content ->
  r <> ∅ /\
  forall k v, r !! k = Some v ->
    k <> [] /\ upper k = k /\ Forall (fun c => is_name_char c = true) k.
Proof.
  intros Hr. destruct (parse_adif_record_inv content r Hr) as [Hne Hkv].
  split; [exact Hne|]. intros k v Hk.
  destruct (Hkv k v Hk) as [m [-> [_ [Hn [Hc _]]]]].
  split; [|split].
  - destruct (t_name m); [contradiction | discriminate].
  - unfold upper. rewrite map_map. apply map_ext. apply to_upper_idem.
  - unfold upper. apply Forall_map. eapply Forall_impl; [exact Hc|].
    intros x Hx. rewrite is_name_char_to_upper. exact Hx.
Qed.

Lemma parse_adif_keys_witness :
  let r := <[s_ "CALL" := s_ "K1ABC"]> (∅ : gmap str str) in
  r ∈ parse_adif (s_ "<eoh><call:5>K1ABC<eor>") /\
  (r <> ∅ /\ forall k v, r !! k = Some v ->
     k <> [] /\ upper k = k /\ Forall (fun c => is_name_char c = true) k).
Proof.
  intros r.
  assert (H : r ∈ parse_adif (s_ "<eoh><call:5>K1ABC<eor>")).
  { vm_compute. left. }
  split; [exact H | exact (parse_adif_keys _ r H)].
Defined.

(** Every value in a record of [parse_adif] has no leading or trailing
    whitespace and never contains the character [<]. *)
Theorem parse_adif_values (content : str) (r : gmap str str) (k v : str) :
  r ∈ parse_adif content -> r !! k = Some v ->
  strip v = v /\ Forall (fun c => c <> "<"%char) v.
Proof.
  intros Hr Hk. destruct (parse_adif_record_inv content r Hr) as [_ Hkv].
  destruct (Hkv k v Hk) as [m [_ [-> [_ [_ Hv]]]]].
  split; [apply strip_idem|].
  apply Forall_strip, Forall_take, Hv.
Qed.

Lemma parse_adif_values_witness :
  let r := <[s_ "NAME" := s_ "Jo"]> (∅ : gmap str str) in
  r ∈ parse_adif (s_ "<eoh><name:4> Jo <eor>") /\ r !! s_ "NAME" = Some (s_ "Jo") /\
  (strip (s_ "Jo") = s_ "Jo" /\ Forall (fun c => c <> "<"%char) (s_ "Jo")).
Proof.
  intros r.
  assert (H1 : r ∈ parse_adif (s_ "<eoh><name:4> Jo <eor>")) by (vm_compute; left).
  assert (H2 : r !! s_ "NAME" = Some (s_ "Jo")) by reflexivity.
  split; [exact H1|]. split; [exact H2|].
  exact (parse_adif_values _ r _ _ H1 H2).
Defined.

(** ** [maidenhead_to_latlon] *)

Lemma subsquare_letter_alpha (c : ascii) : subsquare_letter c = true -> is_alpha c = true.
Proof.
  unfold subsquare_letter, is_alpha, is_upper. intros H.
  apply andb_true_iff in H as [H1 H2]. apply Nat.leb_le in H1, H2.
  apply orb_true_iff. left. apply andb_true_iff. split; apply Nat.leb_le; lia.
Qed.

Lemma ord_bounds (lo hi : nat) (c : ascii) :
  ((lo <=? code c) && (code c <=? hi))%nat = true -> Z.of_nat lo <= ord c <= Z.of_nat hi.
Proof.
  intros H. apply andb_true_iff in H as [H1 H2].
  apply Nat.leb_le in H1, H2. unfold ord. lia.
Qed.

Ltac grid_facts :=
  repeat match goal with
  | H : _ && _ = true |- _ => apply andb_true_iff in H as [? ?]
  end;
  repeat match goal with
  | H : subsquare_letter ?x = true |- _ =>
      pose proof (subsquare_letter_alpha _ H); apply ord_bounds in H
  | H : field_letter ?x = true |- _ => apply ord_bounds in H
  | H : is_alpha ?x = true |- _ => rewrite H; clear H
  | H : is_digit ?x = true |- _ => rewrite H; apply ord_bounds in H
  end.

(** A standard locator of 2, 4, 6 or 8 characters, in either case and with
    surrounding whitespace, always converts, and its cell centre lies
    strictly inside the latitude range (-90, 90) and the longitude range
    (-180, 180). *)
Theorem maidenhead_std_in_range (g : str) :
  std_grid (upper (strip g)) = true ->
  exists lat lon, maidenhead_to_latlon g = Some (lat, lon) /\
    (-90 < lat < 90)%Q /\ (-180 < lon < 180)%Q.
Proof.
  intros H. destruct g as [|x l]; [discriminate H|].
  unfold maidenhead_to_latlon. remember (upper (strip (x :: l))) as G eqn:HG. clear HG.
  assert (HA : ord "A"%char = 65) by reflexivity.
  destruct G as [|a [|b [|c [|d [|e [|f [|h [|i [|j G]]]]]]]]]; try discriminate H;
    simpl in H; cbn -[ord Qlt is_digit is_alpha digit_val]; grid_facts;
    cbn -[ord Qlt digit_val];
    eexists _, _; (split; [reflexivity|]);
    unfold Qlt, digit_val; simpl; rewrite ?HA; lia.
Qed.

Lemma maidenhead_std_in_range_witness :
  std_grid (upper (strip (s_ " rr99xx99 "))) = true /\
  exists lat lon, maidenhead_to_latlon (s_ " rr99xx99 ") = Some (lat, lon) /\
    (-90 < lat < 90)%Q /\ (-180 < lon < 180)%Q.
Proof.
  assert (H : std_grid (upper (strip (s_ " rr99xx99 "))) = true) by (vm_compute; reflexivity).
  split; [exact H | exact (maidenhead_std_in_range _ H)].
Defined.

Lemma maidenhead_norm (g1 g2 : str) :
  g1 <> [] -> g2 <> [] -> upper (strip g1) = upper (strip g2) ->
  maidenhead_to_latlon g1 = maidenhead_to_latlon g2.
Proof.
  destruct g1 as [|x1 l1]; [contradiction|]. destruct g2 as [|x2 l2]; [contradiction|].
  intros _ _ H. unfold maidenhead_to_latlon. rewrite H. reflexivity.
Qed.

Lemma lstrip_snoc_space (s : str) (c : ascii) :
  is_space c = true ->
  lstrip (s ++ [c]) = match lstrip s with [] => [] | t => t ++ [c] end.
Proof.
  intros Hc. induction s as [|x r IH]; simpl.
  - rewrite Hc. reflexivity.
  - destruct (is_space x); [exact IH | reflexivity].
Qed.

Lemma strip_pad (g : str) (c1 c2 : ascii) :
  is_space c1 = true -> is_space c2 = true -> strip (c1 :: g ++ [c2]) = strip g.
Proof.
  intros H1 H2. unfold strip, rstrip. simpl. rewrite H1, lstrip_snoc_space by exact H2.
  destruct (lstrip g) as [|t0 t]; [reflexivity|].
  rewrite rev_app_distr. simpl. rewrite H2. reflexivity.
Qed.

(** [maidenhead_to_latlon] gives the same result for a locator written in
    lower case, and for a locator with a whitespace character added at
    each end. *)
Theorem maidenhead_case_space_insensitive (g : str) (c1 c2 : ascii) :
  is_space c1 = true -> is_space c2 = true ->
  maidenhead_to_latlon (map to_lower g) = maidenhead_to_latlon g /\
  maidenhead_to_latlon (c1 :: g ++ [c2]) = maidenhead_to_latlon g.
Proof.
  intros H1 H2. split.
  - destruct g as [|x l]; [reflexivity|].
    apply maidenhead_norm; [discriminate | discriminate | apply upper_strip_lower].
  - destruct g as [|x l].
    + unfold maidenhead_to_latlon at 1. rewrite (strip_pad [] c1 c2 H1 H2). reflexivity.
    + apply maidenhead_norm; [discriminate | discriminate |].
      rewrite strip_pad by assumption. reflexivity.
Qed.

Lemma maidenhead_case_space_insensitive_witness :
  is_space " "%char = true /\ is_space (ascii_of_nat 9) = true /\
  maidenhead_to_latlon (map to_lower (s_ "FN20")) = maidenhead_to_latlon (s_ "FN20") /\
  maidenhead_to_latlon (" "%char :: s_ "FN20" ++ [ascii_of_nat 9]) = maidenhead_to_latlon (s_ "FN20").
Proof.
  assert (H1 : is_space " "%char = true) by reflexivity.
  assert (H2 : is_space (ascii_of_nat 9) = true) by reflexivity.
  split; [exact H1|]. split; [exact H2|].
  exact (maidenhead_case_space_insensitive _ _ _ H1 H2).
Defined.

(** When the trimmed, upper-cased locator has at least 8 characters, only
    its first 8 characters matter: characters after the eighth are
    ignored. *)
Theorem maidenhead_first_eight (g1 g2 : str) :
  (8 <= length (upper (strip g1)))%nat -> (8 <= length (upper (strip g2)))%nat ->
  take 8 (upper (strip g1)) = take 8 (upper (strip g2)) ->
  maidenhead_to_latlon g1 = maidenhead_to_latlon g2.
Proof.
  intros L1 L2 E.
  destruct g1 as [|x1 l1]; [simpl in L1; lia|]. destruct g2 as [|x2 l2]; [simpl in L2; lia|].
  unfold maidenhead_to_latlon.
  remember (upper (strip (x1 :: l1))) as G1 eqn:HG1. clear HG1.
  remember (upper (strip (x2 :: l2))) as G2 eqn:HG2. clear HG2.
  destruct G1 as [|a1 [|b1 [|c1 [|d1 [|e1 [|f1 [|h1 [|i1 r1]]]]]]]]; simpl in L1; try lia.
  destruct G2 as [|a2 [|b2 [|c2 [|d2 [|e2 [|f2 [|h2 [|i2 r2]]]]]]]]; simpl in L2; try lia.
  simpl in E. injection E as <- <- <- <- <- <- <- <-.
  reflexivity.
Qed.

Lemma maidenhead_first_eight_witness :
  maidenhead_to_latlon (s_ "jn58td25") = maidenhead_to_latlon (s_ "JN58TD25XY").
Proof. apply maidenhead_first_eight; vm_compute; [lia | lia | reflexivity]. Defined.

(** A locator whose trimmed length is 0, 1, 3, 5 or 7 is always rejected. *)
Theorem maidenhead_bad_length (g : str) :
  (length (upper (strip g)) < 2 \/ length (upper (strip g)) = 3 \/
   length (upper (strip g)) = 5 \/ length (upper (strip g)) = 7)%nat ->
  maidenhead_to_latlon g = None.
Proof.
  intros L. destruct g as [|x l]; [reflexivity|].
  unfold maidenhead_to_latlon.
  remember (upper (strip (x :: l))) as G eqn:HG. clear HG.
  destruct G as [|a [|b [|c [|d [|e [|f [|h [|i r]]]]]]]]; simpl in L; try lia;
    cbn -[ord is_digit is_alpha digit_val];
    repeat match goal with |- context [if ?b then _ else _] => destruct b end;
    reflexivity.
Qed.

Lemma maidenhead_bad_length_witness : maidenhead_to_latlon (s_ " FN20A ") = None.
Proof. apply maidenhead_bad_length. vm_compute. lia. Defined.

(** ** [map_builder.py] *)

Lemma groups_of_snoc (key : string) (ps : list point) (p : point) :
  groups_of key (ps ++ [p]) =
  (let k := or_other (field_norm (point_rec p) key) in
   if decide (k ∈ groups_of key ps) then groups_of key ps else groups_of key ps ++ [k]).
Proof. unfold groups_of. rewrite fold_left_app. reflexivity. Qed.

Lemma groups_of_spec (key : string) (ps : list point) :
  NoDup (groups_of key ps) /\
  forall k, k ∈ groups_of key ps <-> exists p, p ∈ ps /\ or_other (field_norm (point_rec p) key) = k.
Proof.
  induction ps as [|p ps [IHn IHk]] using rev_ind.
  - split; [constructor|]. intros k. split.
    + intros H. apply not_elem_of_nil in H. contradiction.
    + intros [p [Hp _]]. apply not_elem_of_nil in Hp. contradiction.
  - rewrite groups_of_snoc. cbv zeta.
    destruct (decide (or_other (field_norm (point_rec p) key) ∈ groups_of key ps)) as [Hin|Hnin].
    + split; [exact IHn|]. intros k. rewrite IHk. split.
      * intros [q [Hq Hk]]. exists q. split; [apply elem_of_app; left; exact Hq | exact Hk].
      * intros [q [Hq Hk]]. apply elem_of_app in Hq as [Hq | Hq]; [exists q; auto|].
        apply list_elem_of_singleton in Hq. subst q. apply IHk. rewrite <- Hk. exact Hin.
    + split.
      * apply NoDup_app. split; [exact IHn|]. split; [|apply NoDup_singleton].
        intros x Hx Hx'. apply list_elem_of_singleton in Hx'. subst x. contradiction.
      * intros k. rewrite elem_of_app, IHk, list_elem_of_singleton. split.
        -- intros [[q [Hq Hk]] | Hk].
           ++ exists q. split; [apply elem_of_app; left; exact Hq | exact Hk].
           ++ exists p. split; [apply elem_of_app; right; left | symmetry; exact Hk].
        -- intros [q [Hq Hk]]. apply elem_of_app in Hq as [Hq | Hq]; [left; exists q; auto|].
           apply list_elem_of_singleton in Hq. subst q. right. symmetry. exact Hk.
Qed.

Lemma setdefault_append_fst {A} (k : str) (x : A) (d : list (str * list A)) :
  map fst (setdefault_append k x d) =
  if decide (k ∈ map fst d) then map fst d else map fst d ++ [k].
Proof.
  induction d as [|[k' xs] d IH]; simpl.
  - destruct (decide (k ∈ [])) as [H|_]; [apply not_elem_of_nil in H; contradiction | reflexivity].
  - destruct (decide (k' = k)) as [->|Hne].
    + simpl. destruct (decide (k ∈ k :: map fst d)) as [_|H]; [reflexivity|].
      exfalso. apply H. left.
    + simpl. rewrite IH.
      destruct (decide (k ∈ map fst d)) as [Hi|Hi];
        destruct (decide (k ∈ k' :: map fst d)) as [Hj|Hj]; try reflexivity.
      * exfalso. apply Hj. right. exact Hi.
      * apply elem_of_cons in Hj as [Hj|Hj]; [congruence | contradiction].
Qed.

Lemma setdefault_append_in {A} (k : str) (x : A) (d : list (str * list A)) (k' : str) (xs : list A) :
  NoDup (map fst d) ->
  (k', xs) ∈ setdefault_append k x d ->
  (k' <> k /\ (k', xs) ∈ d) \/
  (k' = k /\ exists xs0, (k, xs0) ∈ d /\ xs = xs0 ++ [x]) \/
  (k' = k /\ (k ∉ map fst d) /\ xs = [x]).
Proof.
  induction d as [|[k0 ys] d IH]; simpl; intros Hnd H.
  - apply list_elem_of_singleton in H. injection H as -> ->.
    right. right. split; [reflexivity|]. split; [apply not_elem_of_nil | reflexivity].
  - apply NoDup_cons in Hnd as [Hk0 Hnd].
    destruct (decide (k0 = k)) as [->|Hne].
    + apply elem_of_cons in H as [E|H].
      * injection E as -> ->. right. left. split; [reflexivity|]. exists ys. split; [left | reflexivity].
      * left. split.
        -- intros ->. apply Hk0. apply list_elem_of_fmap. exists (k, xs). split; [reflexivity | exact H].
        -- right. exact H.
    + apply elem_of_cons in H as [E|H].
      * injection E as -> ->. left. split; [exact Hne | left].
      * destruct (IH Hnd H) as [[H1 H2] | [[H1 [xs0 [H2 H3]]] | [H1 [H2 H3]]]].
        -- left. split; [exact H1 | right; exact H2].
        -- right. left. split; [exact H1|]. exists xs0. split; [right; exact H2 | exact H3].
        -- right. right. split; [exact H1|]. split; [|exact H3].
           intros Hin. apply elem_of_cons in Hin as [Hin|Hin]; [congruence | contradiction].
Qed.

Lemma filter_none {A} (P : A -> Prop) `{!forall x, Decision (P x)} (l : list A) :
  (forall x, x ∈ l -> ~ P x) -> filter P l = [].
Proof.
  induction l as [|x l IH]; intros Hl; [reflexivity|].
  rewrite filter_cons_False by (apply Hl; left).
  apply IH. intros y Hy. apply Hl. right. exact Hy.
Qed.

Lemma heat_by_snoc (key : string) (ps : list point) (p : point) :
  heat_by key (ps ++ [p]) =
  setdefault_append (or_other (field_norm (point_rec p) key)) (fst (fst p), snd (fst p))
    (heat_by key ps).
Proof. unfold heat_by. rewrite fold_left_app. destruct p as [[lat lon] rec]. reflexivity. Qed.

(** The per-band (resp. per-mode) heat-map keys are the band (resp. mode)
    layer names, in the same first-seen order.  Each key's point list holds
    the coordinates of exactly the points with that key, in plotting order. *)
Theorem heat_by_groups (key : string) (points : list point) :
  map fst (heat_by key points) = groups_of key points /\
  forall k xs, (k, xs) ∈ heat_by key points ->
    xs = map (fun p => (fst (fst p), snd (fst p)))
             (filter (fun p => or_other (field_norm (point_rec p) key) = k) points).
Proof.
  induction points as [|p ps [IHf IHx]] using rev_ind.
  - split; [reflexivity|]. intros k xs H. apply not_elem_of_nil in H. contradiction.
  - destruct (groups_of_spec key ps) as [Hnd Hg].
    rewrite heat_by_snoc, groups_of_snoc. cbv zeta.
    set (kp := or_other (field_norm (point_rec p) key)).
    split.
    + rewrite setdefault_append_fst, IHf. reflexivity.
    + intros k xs H. rewrite <- IHf in Hnd.
      rewrite filter_app, map_app.
      destruct (setdefault_append_in _ _ _ _ _ Hnd H)
        as [[H1 H2] | [[H1 [xs0 [H2 H3]]] | [H1 [H2 H3]]]].
      * rewrite (IHx k xs H2), filter_cons_False, filter_nil, app_nil_r; [reflexivity|].
        intros E. apply H1. rewrite <- E. reflexivity.
      * subst k. rewrite H3, (IHx kp xs0 H2), filter_cons_True, filter_nil by reflexivity.
        reflexivity.
      * subst k. rewrite H3, filter_cons_True, filter_nil by reflexivity.
        rewrite IHf in H2.
        replace (filter _ ps) with (@nil point); [reflexivity|].
        symmetry. apply filter_none. intros q Hq E. apply H2. apply Hg. exists q. auto.
Qed.

(** With band layers, every plotted marker finds its band layer (the
    marker's parent is never [None]) and each band layer is created only
    once.  The same holds for mode layers when only [layers_by_mode] is
    set.  With neither option, no marker has a parent layer. *)
Theorem layer_parent_found (layers_by_mode : bool) (band_groups mode_groups : list str)
    (points : list point) (p : point) :
  p ∈ points ->
  NoDup (groups_of "BAND" points) /\ NoDup (groups_of "MODE" points) /\
  marker_parent true layers_by_mode (groups_of "BAND" points) mode_groups (point_rec p) =
    Some (BandGroup (or_other (field_norm (point_rec p) "BAND"))) /\
  marker_parent false true band_groups (groups_of "MODE" points) (point_rec p) =
    Some (ModeGroup (or_other (field_norm (point_rec p) "MODE"))) /\
  marker_parent false false band_groups mode_groups (point_rec p) = None.
Proof.
  intros Hp.
  destruct (groups_of_spec "BAND" points) as [Hb Hbk].
  destruct (groups_of_spec "MODE" points) as [Hm Hmk].
  split; [exact Hb|]. split; [exact Hm|]. split; [|split; [|reflexivity]].
  - unfold marker_parent. cbn [use_band_layers].
    rewrite decide_True; [reflexivity|]. apply Hbk. exists p. auto.
  - unfold marker_parent. cbn [use_band_layers use_mode_layers andb negb].
    rewrite decide_True; [reflexivity|]. apply Hmk. exists p. auto.
Qed.

Lemma legend_pairs_snoc (key : string) (colors : list (str * str)) (ps : list point) (p : point) :
  legend_pairs key colors (ps ++ [p]) =
  match field_norm (point_rec p) key with
  | [] => legend_pairs key colors ps
  | _ :: _ =>
      let v := field_norm (point_rec p) key in
      let pair := (v, dict_get colors v DEFAULT_COLOR) in
         if decide (pair ∈ legend_pairs key colors ps) then legend_pairs key colors ps
         else legend_pairs key colors ps ++ [pair]
  end.
Proof. unfold legend_pairs. rewrite fold_left_app. reflexivity. Qed.

Lemma legend_pairs_spec (key : string) (colors : list (str * str)) (ps : list point) :
  NoDup (legend_pairs key colors ps) /\
  forall label color, (label, color) ∈ legend_pairs key colors ps <->
    exists p, p ∈ ps /\ label = field_norm (point_rec p) key /\ label <> [] /\
      color = dict_get colors label DEFAULT_COLOR.
Proof.
  induction ps as [|p ps [IHn IHk]] using rev_ind.
  - split; [constructor|]. intros l c. split.
    + intros H. apply not_elem_of_nil in H. contradiction.
    + intros [p [Hp _]]. apply not_elem_of_nil in Hp. contradiction.
  - assert (Hstep : forall l c, (exists q, q ∈ ps ++ [p] /\ l = field_norm (point_rec q) key /\
        l <> [] /\ c = dict_get colors l DEFAULT_COLOR) <->
        (l, c) ∈ legend_pairs key colors ps \/
        (l = field_norm (point_rec p) key /\ l <> [] /\ c = dict_get colors l DEFAULT_COLOR)).
    { intros l c. rewrite IHk. split.
      - intros [q [Hq Hrest]]. apply elem_of_app in Hq as [Hq|Hq]; [left; exists q; auto|].
        apply list_elem_of_singleton in Hq. subst q. right. exact Hrest.
      - intros [[q [Hq Hrest]] | Hrest].
        + exists q. split; [apply elem_of_app; left; exact Hq | exact Hrest].
        + exists p. split; [apply elem_of_app; right; left | exact Hrest]. }
    rewrite legend_pairs_snoc.
    destruct (field_norm (point_rec p) key) as [|v0 vs] eqn:Hv.
    + split; [exact IHn|]. intros l c. rewrite Hstep. split; [auto|].
      intros [H | [-> [H _]]]; [exact H | contradiction].
    + cbv zeta.
      destruct (decide ((v0 :: vs, dict_get colors (v0 :: vs) DEFAULT_COLOR) ∈ legend_pairs key colors ps))
        as [Hin|Hnin].
      * split; [exact IHn|]. intros l c. rewrite Hstep. split; [auto|].
        intros [H | [-> [_ ->]]]; [exact H | exact Hin].
      * split.
        -- apply NoDup_app. split; [exact IHn|]. split; [|apply NoDup_singleton].
           intros x Hx Hx'. apply list_elem_of_singleton in Hx'. subst x. contradiction.
        -- intros l c. rewrite Hstep, elem_of_app, list_elem_of_singleton. split.
           ++ intros [H | E]; [left; exact H|]. injection E as -> ->. right.
              split; [reflexivity|]. split; [discriminate | reflexivity].
           ++ intros [H | [-> [_ ->]]]; [left; exact H | right; reflexivity].
Qed.

Lemma marker_color_key (lb lm : bool) (rec : record) :
  marker_color lb lm rec =
  if lb || lm then dict_get MODE_COLORS (field_norm rec "MODE") DEFAULT_COLOR
  else dict_get BAND_COLORS (field_norm rec "BAND") DEFAULT_COLOR.
Proof. destruct lb, lm; reflexivity. Qed.

(** The legend shown has no duplicate entries.  It lists exactly the
    pairs (label, marker colour) of the plotted markers whose legend field
    is non-empty.  The legend field is MODE when band or mode layers are
    on, and BAND otherwise. *)
Theorem legend_matches_markers (lb lm : bool) (points : list point) :
  let key := if lb || lm then "MODE"%string else "BAND"%string in
  NoDup (legend_shown lb lm points) /\
  forall label color, (label, color) ∈ legend_shown lb lm points <->
    exists p, p ∈ points /\ label = field_norm (point_rec p) key /\ label <> [] /\
      color = marker_color lb lm (point_rec p).
Proof.
  intros key.
  assert (E : legend_shown lb lm points =
    legend_pairs key (if lb || lm then MODE_COLORS else BAND_COLORS) points)
    by (subst key; destruct lb, lm; reflexivity).
  rewrite E. destruct (legend_pairs_spec key (if lb || lm then MODE_COLORS else BAND_COLORS) points)
    as [Hn Hk].
  split; [exact Hn|]. intros l c. rewrite Hk.
  split; intros [p [Hp [Hl [Hne Hc]]]]; exists p; (split; [exact Hp|]); (split; [exact Hl|]);
    (split; [exact Hne|]); rewrite Hc, marker_color_key; subst key l; destruct (lb || lm); reflexivity.
Qed.

Lemma count_by_snoc (key : string) (es : list record) (e : record) :
  count_by key (es ++ [e]) =
  <[or_other (field_norm e key) :=
      (default 0 (count_by key es !! or_other (field_norm e key)) + 1)%nat]> (count_by key es).
Proof. unfold count_by. rewrite fold_left_app. reflexivity. Qed.

(** The per-band (resp. per-mode) count of the stats panel for a key is
    the number of entries whose normalised BAND (resp. MODE) is that key;
    keys not seen count 0. *)
Theorem count_by_counts (key : string) (entries : list record) (k : str) :
  default 0%nat (count_by key entries !! k) =
  length (filter (fun e => or_other (field_norm e key) = k) entries).
Proof.
  induction entries as [|e es IH] using rev_ind.
  - reflexivity.
  - rewrite count_by_snoc, filter_app, length_app.
    destruct (decide (or_other (field_norm e key) = k)) as [<-|Hne].
    + rewrite lookup_insert_eq. simpl. rewrite IH, filter_cons_True, filter_nil by reflexivity.
      simpl. lia.
    + rewrite lookup_insert_ne by exact Hne. rewrite IH, filter_cons_False, filter_nil by exact Hne.
      simpl. lia.
Qed.

Lemma fold_Qplus_bounds (lo hi : Q) (l : list Q) (acc : Q) :
  Forall (fun x => lo <= x <= hi)%Q l ->
  (acc + lo * inject_Z (Z.of_nat (length l)) <= fold_left Qplus l acc <=
   acc + hi * inject_Z (Z.of_nat (length l)))%Q.
Proof.
  revert acc. induction l as [|x l IH]; intros acc Hl; simpl.
  - change (inject_Z (Z.of_nat 0)) with 0%Q. lra.
  - apply Forall_cons in Hl as [Hx Hl]. specialize (IH (acc + x)%Q Hl).
    rewrite Nat2Z.inj_succ, <- Z.add_1_r, inject_Z_plus.
    change (inject_Z 1) with 1%Q. lra.
Qed.

Lemma average_bounds (lo hi : Q) (l : list Q) :
  l <> [] -> Forall (fun x => lo <= x <= hi)%Q l ->
  (lo <= fold_left Qplus l 0 / inject_Z (Z.of_nat (length l)) <= hi)%Q.
Proof.
  intros Hne Hl. destruct (fold_Qplus_bounds lo hi l 0 Hl) as [H1 H2].
  assert (Hn : (0 < inject_Z (Z.of_nat (length l)))%Q).
  { destruct l as [|x l]; [contradiction|]. simpl length.
    change 0%Q with (inject_Z 0). rewrite <- Zlt_Qlt. lia. }
  split.
  - apply Qle_shift_div_l; [exact Hn|]. lra.
  - apply Qle_shift_div_r; [exact Hn|]. lra.
Qed.

(** Without a home location and with at least one point, the map centre
    is the average of the points.  When every point is within
    [-90, 90] x [-180, 180], so is the centre (in exact arithmetic). *)
Theorem map_center_in_range (points : list point) :
  points <> [] ->
  Forall (fun p => -90 <= fst (fst p) <= 90 /\ -180 <= snd (fst p) <= 180)%Q points ->
  exists la lo, map_center points None = Ok (la, lo) /\
    (-90 <= la <= 90)%Q /\ (-180 <= lo <= 180)%Q.
Proof.
  intros Hne Hr. destruct points as [|p ps]; [contradiction|].
  eexists _, _. split; [reflexivity|].
  pose proof (average_bounds (-90) 90 (map (fun p => fst (fst p)) (p :: ps))) as Hla.
  pose proof (average_bounds (-180) 180 (map (fun p => snd (fst p)) (p :: ps))) as Hlo.
  rewrite length_map in Hla, Hlo.
  split; [apply Hla | apply Hlo]; try discriminate; apply Forall_map;
    eapply Forall_impl; try exact Hr; intros q Hq; [exact (proj1 Hq) | exact (proj2 Hq)].
Qed.

Lemma slice_two (t : str) (i j : nat) :
  j = (i + 2)%nat -> (j <= length t)%nat -> exists a b, slice t i j = [a; b].
Proof.
  intros -> Hl. unfold slice. replace (i + 2 - i)%nat with 2%nat by lia.
  destruct (drop i t) as [|a [|b r]] eqn:Hd.
  - apply (f_equal length) in Hd. rewrite length_drop in Hd. simpl in Hd. lia.
  - apply (f_equal length) in Hd. rewrite length_drop in Hd. simpl in Hd. lia.
  - exists a, b. reflexivity.
Qed.

(** The time-slider stamp exists exactly when the trimmed QSO_DATE has 8
    characters.  It is then 20 characters long, with [-], [-], [T], [:],
    [:] and [Z] at positions 4, 7, 10, 13, 16 and 19.  Its first 10
    characters copy the date unchanged, without any validation. *)
Theorem time_stamp_shape (rec : record) :
  let d := strip (default [] (rec !! s_ "QSO_DATE")) in
  (time_stamp rec = None <-> length d <> 8%nat) /\
  forall s, time_stamp rec = Some s ->
    length s = 20%nat /\
    s !! 4%nat = Some "-"%char /\ s !! 7%nat = Some "-"%char /\ s !! 10%nat = Some "T"%char /\
    s !! 13%nat = Some ":"%char /\ s !! 16%nat = Some ":"%char /\ s !! 19%nat = Some "Z"%char /\
    take 10 s = take 4 d ++ s_ "-" ++ slice d 4 6 ++ s_ "-" ++ slice d 6 8.
Proof.
  intros d. unfold time_stamp. cbv zeta.
  change (strip (match rec !! s_ "QSO_DATE" with Some v => v | None => [] end)) with d.
  set (t := strip (match rec !! s_ "TIME_ON" with Some v => v | None => [] end)).
  clearbody d t.
  destruct (length d =? 8)%nat eqn:E.
  - apply Nat.eqb_eq in E. split; [split; [discriminate | contradiction]|].
    do 8 (destruct d as [|? d]; [discriminate E|]).
    destruct d; [|discriminate E].
    repeat match goal with
    | |- context [if (?k <=? length t)%nat then _ else _] =>
        let H := fresh "H" in destruct (k <=? length t)%nat eqn:H
    end;
    repeat match goal with
    | H : (2 <=? length t)%nat = true |- _ =>
        let E := fresh "E" in
        apply Nat.leb_le in H; destruct (slice_two t 0 2 eq_refl H) as [? [? E]];
        change (take 2 t) with (slice t 0 2); rewrite E; clear H E
    | H : (4 <=? length t)%nat = true |- _ =>
        let E := fresh "E" in
        apply Nat.leb_le in H; destruct (slice_two t 2 4 eq_refl H) as [? [? E]]; rewrite E; clear H E
    | H : (6 <=? length t)%nat = true |- _ =>
        let E := fresh "E" in
        apply Nat.leb_le in H; destruct (slice_two t 4 6 eq_refl H) as [? [? E]]; rewrite E; clear H E
    end;
    intros s Hsome; injection Hsome as <-; repeat split.
  - apply Nat.eqb_neq in E. split; [split; [intros _; exact E | reflexivity]|].
    intros s Hs. discriminate Hs.
Qed.

Lemma str_leb_total (a b : str) : str_leb a b = true \/ str_leb b a = true.
Proof.
  revert b. induction a as [|x a IH]; intros [|y b]; simpl; auto.
  destruct (code x <? code y)%nat eqn:H1; [left; reflexivity|].
  destruct (code y <? code x)%nat eqn:H2; [right; reflexivity|].
  apply Nat.ltb_ge in H1, H2.
  assert (E : code x = code y) by lia. rewrite E, Nat.eqb_refl. apply IH.
Qed.

Lemma str_le_total : Total str_le.
Proof. intros a b. apply str_leb_total. Qed.

Lemma csv_keys_fold (es : list record) (acc : gset str) (k : str) :
  k ∈ fold_left (fun ks e => ks ∪ dom e) es acc <->
  k ∈ acc \/ exists e, e ∈ es /\ is_Some (e !! k).
Proof.
  revert acc. induction es as [|e es IH]; intros acc; simpl.
  - split; [auto|]. intros [H | [e [He _]]]; [exact H|]. apply not_elem_of_nil in He. contradiction.
  - rewrite IH, elem_of_union, elem_of_dom. split.
    + intros [[H | H] | [e' [He' H]]]; [left; exact H | right; exists e; split; [left | exact H]|].
      right. exists e'. split; [right; exact He' | exact H].
    + intros [H | [e' [He' H]]]; [left; left; exact H|].
      apply elem_of_cons in He' as [-> | He']; [left; right; exact H|].
      right. exists e'. auto.
Qed.

(** The CSV header has no duplicates and is sorted.  It contains exactly
    the keys that occur in some row, so [DictWriter.writerow] never meets a
    key missing from the header. *)
Theorem csv_fieldnames_spec (entries : list record) :
  NoDup (csv_fieldnames entries) /\ Sorted str_le (csv_fieldnames entries) /\
  forall k, k ∈ csv_fieldnames entries <-> exists e, e ∈ entries /\ is_Some (e !! k).
Proof.
  unfold csv_fieldnames. split; [|split].
  - rewrite (merge_sort_Permutation str_le). apply NoDup_elements.
  - apply Sorted_merge_sort. apply str_le_total.
  - intros k. rewrite (merge_sort_Permutation str_le), elem_of_elements.
    unfold csv_keys. rewrite csv_keys_fold. split; [|auto].
    intros [H | H]; [set_solver | exact H].
Qed.

(** A home location accepted by the CLI comes either from a non-empty
    [--home-grid] (which takes precedence) or, when no grid is given, from
    both [--home-lat] and [--home-lon] within [-90, 90] x [-180, 180]. *)
Theorem home_latlon_cases (grid : option str) (la lo : option Q) (a b : Q) :
  home_latlon grid la lo = Ok (Some (a, b)) ->
  (exists g, grid = Some g /\ g <> [] /\ maidenhead_to_latlon g = Some (a, b)) \/
  ((grid = None \/ grid = Some []) /\ la = Some a /\ lo = Some b /\
   (-90 <= a <= 90)%Q /\ (-180 <= b <= 180)%Q).
Proof.
  unfold home_latlon. intros H.
  destruct grid as [[|c g]|].
  3, 1: right; destruct la as [la|], lo as [lo|]; try discriminate H;
    destruct (Qle_bool (-90) la && Qle_bool la 90 && Qle_bool (-180) lo && Qle_bool lo 180) eqn:E;
      [|discriminate H];
    injection H as -> ->;
    apply andb_true_iff in E as [E E4]; apply andb_true_iff in E as [E E3];
    apply andb_true_iff in E as [E1 E2]; apply Qle_bool_iff in E1, E2, E3, E4;
    repeat split; auto.
  left. destruct (maidenhead_to_latlon (c :: g)) as [p|] eqn:Hm; [|discriminate H].
  injection H as <-. exists (c :: g). split; [reflexivity|]. split; [discriminate | exact Hm].
Qed.

Lemma popup_fields_ext (e1 e2 : record) (ks : list string) :
  (forall key, key ∈ ks -> e1 !! s_ key = e2 !! s_ key) ->
  omap (popup_field e1) ks = omap (popup_field e2) ks.
Proof.
  induction ks as [|k ks IH]; intros H; [reflexivity|].
  change (omap (popup_field e1) (k :: ks)) with
    (match popup_field e1 k with Some y => y :: omap (popup_field e1) ks | None => omap (popup_field e1) ks end).
  change (omap (popup_field e2) (k :: ks)) with
    (match popup_field e2 k with Some y => y :: omap (popup_field e2) ks | None => omap (popup_field e2) ks end).
  assert (Hk : popup_field e1 k = popup_field e2 k).
  { unfold popup_field. rewrite (H k); [reflexivity | left]. }
  rewrite Hk, IH; [reflexivity|]. intros key Hkey. apply H. right. exact Hkey.
Qed.

Lemma join_infix (sep x : str) (l : list str) : x ∈ l -> exists k1 k2, join sep l = k1 ++ x ++ k2.
Proof.
  induction l as [|y [|z l] IH]; intros H.
  - apply not_elem_of_nil in H. contradiction.
  - apply list_elem_of_singleton in H. subst. exists [], []. simpl. rewrite app_nil_r. reflexivity.
  - apply elem_of_cons in H as [-> | H].
    + exists [], (sep ++ join sep (z :: l)). reflexivity.
    + destruct (IH H) as [k1 [k2 Hk]]. exists (y ++ sep ++ k1), k2.
      change (join sep (y :: z :: l)) with (y ++ sep ++ join sep (z :: l)).
      rewrite Hk. rewrite !app_assoc. reflexivity.
Qed.

Lemma popup_field_prefix (e : record) (ks : list string) :
  Forall (fun f => s_ "<b>" `prefix_of` f) (omap (popup_field e) ks).
Proof.
  induction ks as [|k ks IH]; [constructor|].
  change (omap (popup_field e) (k :: ks)) with
    (match popup_field e k with Some y => y :: omap (popup_field e) ks | None => omap (popup_field e) ks end).
  unfold popup_field at 1. destruct (e !! s_ k) as [[|c v]|]; try exact IH.
  constructor; [|exact IH]. eexists. reflexivity.
Qed.

Lemma join_prefix (sep : str) (x : str) (l : list str) : x `prefix_of` join sep (x :: l).
Proof. destruct l; [reflexivity|]. eexists. reflexivity. Qed.

(** The popup depends only on the twelve listed fields: two records that
    agree on them give the same popup. *)
Theorem format_popup_listed_keys (e1 e2 : record) :
  (forall key, key ∈ popup_keys -> e1 !! s_ key = e2 !! s_ key) ->
  format_popup e1 = format_popup e2.
Proof.
  intros H. unfold format_popup.
  rewrite (popup_fields_ext e1 e2 popup_keys H), (H "CALL"%string); [reflexivity | left].
Qed.

Lemma popup_fields_nil (e : record) (ks : list string) :
  omap (popup_field e) ks = [] <-> forall key, key ∈ ks -> popup_field e key = None.
Proof.
  induction ks as [|k ks IH].
  - split; [|reflexivity]. intros _ key H. apply not_elem_of_nil in H. contradiction.
  - change (omap (popup_field e) (k :: ks)) with
      (match popup_field e k with Some y => y :: omap (popup_field e) ks | None => omap (popup_field e) ks end).
    destruct (popup_field e k) as [f|] eqn:Hk.
    + split; [discriminate|]. intros H. rewrite (H k) in Hk; [discriminate | left].
    + rewrite IH. split.
      * intros H key Hkey. apply elem_of_cons in Hkey as [-> | Hkey]; [exact Hk | apply H, Hkey].
      * intros H key Hkey. apply H. right. exact Hkey.
Qed.

Lemma popup_field_none (e : record) (key : string) :
  popup_field e key = None <-> e !! s_ key = None \/ e !! s_ key = Some [].
Proof.
  unfold popup_field. destruct (e !! s_ key) as [[|c v]|].
  - split; [right; reflexivity | reflexivity].
  - split; [discriminate|]. intros [H|H]; discriminate.
  - split; [left; reflexivity | reflexivity].
Qed.

(** The popup starts with [<i>No details</i>] exactly when every listed
    field is missing or empty. *)
Theorem format_popup_no_details (e : record) :
  (forall key, key ∈ popup_keys -> e !! s_ key = None \/ e !! s_ key = Some []) <->
  s_ "<i>No details</i>" `prefix_of` format_popup e.
Proof.
  unfold format_popup. cbv zeta.
  pose proof (popup_field_prefix e popup_keys) as Hp.
  assert (Hiff : (forall key, key ∈ popup_keys -> e !! s_ key = None \/ e !! s_ key = Some []) <->
                 omap (popup_field e) popup_keys = []).
  { rewrite popup_fields_nil. split; intros H key Hkey; apply popup_field_none, H, Hkey. }
  rewrite Hiff.
  destruct (omap (popup_field e) popup_keys) as [|f r].
  - split; [intros _; eexists; reflexivity | reflexivity].
  - split; [discriminate|]. intros [k1 Hk1].
    apply Forall_cons in Hp as [[k2 Hf] _].
    destruct (join_prefix (s_ "<br>") f r) as [k3 Hj].
    rewrite Hj, Hf in Hk1. discriminate Hk1.
Qed.

(** Every non-empty listed field appears in the popup as
    [<b>KEY</b>: value], with the value inserted verbatim (no HTML
    escaping). *)
Theorem format_popup_verbatim (e : record) (key : string) (v : str) :
  key ∈ popup_keys -> e !! s_ key = Some v -> v <> [] ->
  exists k1 k2, format_popup e = k1 ++ (s_ "<b>" ++ s_ key ++ s_ "</b>: " ++ v) ++ k2.
Proof.
  intros Hkey Hv Hne.
  assert (Hf : popup_field e key = Some (s_ "<b>" ++ s_ key ++ s_ "</b>: " ++ v)).
  { unfold popup_field. rewrite Hv. destruct v; [contradiction | reflexivity]. }
  assert (Hin : (s_ "<b>" ++ s_ key ++ s_ "</b>: " ++ v) ∈ omap (popup_field e) popup_keys).
  { apply list_elem_of_omap. exists key. auto. }
  unfold format_popup. cbv zeta.
  destruct (omap (popup_field e) popup_keys) as [|f r].
  - apply not_elem_of_nil in Hin. contradiction.
  - destruct (join_infix (s_ "<br>") _ _ Hin) as [k1 [k2 Hk]].
    exists k1. eexists. rewrite Hk, <- !app_assoc. reflexivity.
Qed.

Lemma layer_parent_found_witness :
  let p : point := (1%Q, 2%Q, record1 "BAND" "20m") in
  p ∈ [p] /\
  (NoDup (groups_of "BAND" [p]) /\ NoDup (groups_of "MODE" [p]) /\
   marker_parent true false (groups_of "BAND" [p]) [] (point_rec p) =
     Some (BandGroup (or_other (field_norm (point_rec p) "BAND"))) /\
   marker_parent false true [] (groups_of "MODE" [p]) (point_rec p) =
     Some (ModeGroup (or_other (field_norm (point_rec p) "MODE"))) /\
   marker_parent false false [] [] (point_rec p) = None).
Proof.
  intros p. assert (H : p ∈ [p]) by left.
  split; [exact H | exact (layer_parent_found false [] [] [p] p H)].
Defined.

Lemma map_center_in_range_witness :
  exists la lo : Q, map_center [(10%Q, 20%Q, ∅); (30%Q, (-40)%Q, ∅)] None = Ok (la, lo) /\
    (-90 <= la <= 90)%Q /\ (-180 <= lo <= 180)%Q.
Proof.
  apply map_center_in_range; [discriminate|].
  repeat constructor; simpl; unfold Qle; simpl; lia.
Defined.

Lemma home_latlon_cases_witness :
  home_latlon None (Some 40%Q) (Some (-74)%Q) = Ok (Some (40%Q, (-74)%Q)) /\
  ((exists g, (None : option str) = Some g /\ g <> [] /\ maidenhead_to_latlon g = Some (40%Q, (-74)%Q)) \/
   (((None : option str) = None \/ (None : option str) = Some []) /\ Some 40%Q = Some 40%Q /\ Some (-74)%Q = Some (-74)%Q /\
    (-90 <= 40 <= 90)%Q /\ (-180 <= -74 <= 180)%Q)).
Proof.
  assert (H : home_latlon None (Some 40%Q) (Some (-74)%Q) = Ok (Some (40%Q, (-74)%Q)))
    by (vm_compute; reflexivity).
  split; [exact H | exact (home_latlon_cases _ _ _ _ _ H)].
Defined.

Lemma format_popup_listed_keys_witness :
  format_popup (<[s_ "NOTE" := s_ "x"]> (record1 "CALL" "K1ABC")) = format_popup (record1 "CALL" "K1ABC").
Proof.
  apply format_popup_listed_keys. apply Forall_forall.
  repeat constructor; vm_compute; reflexivity.
Defined.

Lemma format_popup_verbatim_witness :
  exists k1 k2, format_popup (record1 "CALL" "K1<b>") =
    k1 ++ (s_ "<b>" ++ s_ "CALL" ++ s_ "</b>: " ++ s_ "K1<b>") ++ k2.
Proof.
  apply format_popup_verbatim; [left | reflexivity | discriminate].
Defined.
